(** * pimotors: the motor-set orchestration engine (motorset.py)

    A shallow embedding of class [motorset]: the registry of named motor
    units, the shared-service broker, the [mlist] dispatch protocol, the
    periodic tick and shutdown.

    Python objects are references into an object store ([heap]); the
    instance attributes [sharedServices], [motors] and [quadmon] hold
    references.  A method is a computation [M A] that threads the store and
    the attributes and may raise; what was mutated before a raise stays
    mutated, as in Python.

    The motor class, the service classes and [logger.makeClassInstance] are
    collaborators whose code is outside motorset.py: they enter through the
    [Collaborators] interface. *)

From stdpp Require Import base list strings.
From Stdlib Require Import QArith.
Close Scope Q_scope.

(** ** Python dictionaries

    Insertion-ordered, one slot per key: assigning to a key that is already
    present replaces the value in its slot and keeps the slot's position. *)

Definition dict (V : Type) : Type := list (string * V).

Fixpoint dict_get {V : Type} (k : string) (d : dict V) : option V :=
  match d with
  | [] => None
  | (k', v) :: d' => if String.eqb k k' then Some v else dict_get k d'
  end.

(** [k in d] *)
Definition dict_mem {V : Type} (k : string) (d : dict V) : bool :=
  match dict_get k d with
  | Some _ => true
  | None => false
  end.

(** [d[k] = v] *)
Fixpoint dict_set {V : Type} (k : string) (v : V) (d : dict V) : dict V :=
  match d with
  | [] => [(k, v)]
  | (k', v') :: d' =>
      if String.eqb k k' then (k', v) :: d' else (k', v') :: dict_set k v d'
  end.

Definition dict_keys {V : Type} (d : dict V) : list string := map fst d.

Definition dict_values {V : Type} (d : dict V) : list V := map snd d.

(** membership of a name in a list of names, as a boolean *)
Fixpoint mem (k : string) (l : list string) : bool :=
  match l with
  | [] => false
  | k' :: l' => if String.eqb k k' then true else mem k l'
  end.

Fixpoint distinct (l : list string) : bool :=
  match l with
  | [] => true
  | k :: l' => negb (mem k l') && distinct l'
  end.

(** ** Exceptions and outcomes *)

Inductive exn : Type :=
| KeyError (k : string)
| ValueError (msg : string)
| TypeError (msg : string)
| AttributeError (msg : string)
| CollaboratorError (msg : string).

Inductive outcome (A : Type) : Type :=
| Returns (a : A)
| Raises (e : exn).

Arguments Returns {A} a.
Arguments Raises {A} e.

Definition returned {A : Type} (o : outcome A) : bool :=
  match o with
  | Returns _ => true
  | Raises _ => false
  end.

(** ** Motor specifications

    One entry of [motordefs] is a dict; motorset.py reads its ['name'] and,
    when present, the ['pins'] of its ['rotationsense'] dict.  Every other
    key is handed on to the constructor untouched ([md_rest]). *)

Record rotationsense_def : Type := {
  pins : option (list Z)
}.

Record mdef (K : Type) : Type := {
  md_name : string;
  md_rotationsense : option rotationsense_def;
  md_rest : K
}.

Arguments md_name {K} _.
Arguments md_rotationsense {K} _.
Arguments md_rest {K} _.

(** ** Collaborators

    What motorset.py calls but does not define:
    - [new_unit]: [logger.makeClassInstance(parent=self, **mdef)];
    - [new_monitor]: [logger.makeClassInstance(motorquads=qd, **quadmonitor)];
    - [new_service]: [logger.makeClassInstance(className=className, **servargs)];
    - [call]: a method of a motor unit looked up by name and applied to
      positional arguments, which updates the unit's own state and returns
      or raises.
    A constructor is a function of the arguments motorset.py passes it and
    a call acts on the unit it is made on.  What a unit does with the motor
    set it is given as [parent] (a call of [needservice] from its
    constructor or from one of its methods) is outside this interface: the
    statements about the broker below are about [needservice] itself and
    about what motorset.py assigns. *)

Class Collaborators : Type := {
  kwargs : Type;
  value : Type;
  ustate : Type;
  sstate : Type;
  qstate : Type;
  new_unit : mdef kwargs -> outcome ustate;
  new_monitor : dict (list Z) -> kwargs -> outcome qstate;
  new_service : string -> kwargs -> outcome sstate;
  call : string -> list value -> ustate -> outcome value * ustate
}.

(** ** A reference motor *)

(** Modelled from the spec: the motor unit class (dcmotorbasic.motor), the
    service classes and logger.makeClassInstance are not part of
    motorset.py.  The definitions of this part follow the Motor Unit of the
    spec: a unit holds a commanded duty cycle and frequency, an inversion
    flag, a target speed, the last known position and RPM and an open/closed
    flag; [stop] commands zero drive output; an out-of-range duty cycle is
    rejected by the drive; an unknown class reference is a construction-time
    error.  [sim_value] is what its methods take and return. *)
Inductive sim_value : Type :=
| VNone
| VBool (b : bool)
| VNum (q : Q).

Record sim_unit : Type := {
  dutycycle : Q;
  freq : Q;
  inverted : bool;
  target : option Q;
  last_position : Q;
  last_rpm : Q;
  closed : bool
}.

Definition sim_fresh : sim_unit :=
  {| dutycycle := 0; freq := 100; inverted := false; target := None;
     last_position := 0; last_rpm := 0; closed := false |}.

Definition sim_set_dc (q : Q) (s : sim_unit) : sim_unit :=
  {| dutycycle := q; freq := freq s; inverted := inverted s;
     target := target s; last_position := last_position s;
     last_rpm := last_rpm s; closed := closed s |}.

Definition sim_set_freq (q : Q) (s : sim_unit) : sim_unit :=
  {| dutycycle := dutycycle s; freq := q; inverted := inverted s;
     target := target s; last_position := last_position s;
     last_rpm := last_rpm s; closed := closed s |}.

Definition sim_set_inverted (b : bool) (s : sim_unit) : sim_unit :=
  {| dutycycle := dutycycle s; freq := freq s; inverted := b;
     target := target s; last_position := last_position s;
     last_rpm := last_rpm s; closed := closed s |}.

Definition sim_set_target (t : option Q) (s : sim_unit) : sim_unit :=
  {| dutycycle := dutycycle s; freq := freq s; inverted := inverted s;
     target := t; last_position := last_position s;
     last_rpm := last_rpm s; closed := closed s |}.

Definition sim_stop (s : sim_unit) : sim_unit :=
  sim_set_target None (sim_set_dc 0 s).

Definition sim_close (s : sim_unit) : sim_unit :=
  {| dutycycle := 0; freq := freq s; inverted := inverted s;
     target := None; last_position := last_position s;
     last_rpm := last_rpm s; closed := true |}.

(** the feedback step: proportional, one thousandth of the speed error *)
Definition sim_tick (s : sim_unit) : sim_unit :=
  match target s with
  | Some t => sim_set_dc (dutycycle s + (t - last_rpm s) / 1000)%Q s
  | None => s
  end.

(** Modelled from the spec: the operation surface of a Motor Unit (the
    motor class is not part of motorset.py): the queries return cached
    values, the setters store their argument and return the current value,
    [DC] rejects a duty cycle outside [-1, 1], [stop] and [close] command
    zero output, [ticker] is the feedback step. *)
Definition sim_call (meth : string) (args : list sim_value) (s : sim_unit)
  : outcome sim_value * sim_unit :=
  if String.eqb meth "lastPosition" then (Returns (VNum (last_position s)), s)
  else if String.eqb meth "lastRPM" then (Returns (VNum (last_rpm s)), s)
  else if String.eqb meth "invert" then
    match args with
    | [VBool b] => (Returns (VBool b), sim_set_inverted b s)
    | _ => (Returns (VBool (inverted s)), s)
    end
  else if String.eqb meth "frequency" then
    match args with
    | [VNum f] => (Returns (VNum f), sim_set_freq f s)
    | _ => (Returns (VNum (freq s)), s)
    end
  else if String.eqb meth "DC" then
    match args with
    | [VNum q] =>
        if Qle_bool (-1) q && Qle_bool q 1
        then (Returns (VNum q), sim_set_dc q s)
        else (Raises (CollaboratorError "duty cycle out of range"), s)
    | _ => (Raises (TypeError "DC"), s)
    end
  else if String.eqb meth "speedLimits" then (Returns VNone, s)
  else if String.eqb meth "speed" || String.eqb meth "targetSpeed" then
    match args with
    | [VNum t] => (Returns (VNum t), sim_set_target (Some t) s)
    | _ => (Returns (match target s with Some t => VNum t | None => VNone end), s)
    end
  else if String.eqb meth "feedbackParam" then (Returns VNone, s)
  else if String.eqb meth "stop" then (Returns VNone, sim_stop s)
  else if String.eqb meth "close" then (Returns VNone, sim_close s)
  else if String.eqb meth "ticker" then (Returns VNone, sim_tick s)
  else if String.eqb meth "odef" then (Returns VNone, s)
  else (Raises (AttributeError meth), s).

(** Modelled from the spec: logger.makeClassInstance is not part of
    motorset.py; an unknown class reference is a construction-time error.
    The remaining keys of a specification are here its ['className']. *)
Definition sim_new_unit (d : mdef string) : outcome sim_unit :=
  if String.eqb (md_rest d) "dcmotorbasic.motor" then Returns sim_fresh
  else Raises (CollaboratorError "unknown class").

(** Modelled from the spec: the shared monitor class is not part of
    motorset.py; a monitor keeps the name-to-lines mapping it was given. *)
Definition sim_new_monitor (qd : dict (list Z)) (q : string)
  : outcome (dict (list Z)) :=
  if String.eqb q "" then Raises (CollaboratorError "unknown class")
  else Returns qd.

(** Modelled from the spec: the service classes are not part of
    motorset.py; a service keeps the specification it was built from. *)
Definition sim_new_service (className : string) (servargs : string)
  : outcome (string * string) :=
  if String.eqb className "" then Raises (CollaboratorError "unknown class")
  else Returns (className, servargs).

(** Modelled from the spec: the collaborators of the motor set, none of
    which is part of motorset.py. *)
#[export] Instance sim : Collaborators := {|
  kwargs := string;
  value := sim_value;
  ustate := sim_unit;
  sstate := string * string;
  qstate := dict (list Z);
  new_unit := sim_new_unit;
  new_monitor := sim_new_monitor;
  new_service := sim_new_service;
  call := sim_call
|}.

(** ** The object store and the motor set *)

(** a reference is an index into the store *)
Abbreviation ref := nat (only parsing).

Section Engine.

Context `{Collaborators}.

(** what a dispatch call hands back: nothing, one per-motor result, or a
    dict from motor name to per-motor result *)
Inductive pyval : Type :=
| PNone
| PVal (v : value)
| PDict (d : dict value).

(** the [mlist] / [units] parameter: [None], one name, or a collection of
    names *)
Inductive selector : Type :=
| SelNone
| SelName (n : string)
| SelList (l : list string).

(** an object of the store; a motor unit carries its [name] attribute *)
Inductive obj : Type :=
| OUnit (name : string) (st : ustate)
| OService (s : sstate)
| OMonitor (q : qstate).

(** the store, the attributes of [self], and the number of exit hooks
    registered with [atexit] *)
Record world : Type := mkWorld {
  heap : list obj;
  sharedServices : dict ref;
  motors : dict ref;
  quadmon : option ref;
  atexit : nat
}.

Definition blank : world :=
  {| heap := []; sharedServices := []; motors := []; quadmon := None;
     atexit := 0 |}.

Definition M (A : Type) : Type := world -> outcome A * world.

Definition ret {A : Type} (a : A) : M A := fun w => (Returns a, w).

Definition raise {A : Type} (e : exn) : M A := fun w => (Raises e, w).

Definition bind {A B : Type} (m : M A) (f : A -> M B) : M B :=
  fun w =>
    match m w with
    | (Returns a, w') => f a w'
    | (Raises e, w') => (Raises e, w')
    end.

Notation "x <- m ;; k" := (bind m (fun x => k))
  (at level 100, m at next level, right associativity).
Notation "m >> k" := (bind m (fun _ => k))
  (at level 100, right associativity).

(** [for a in l: body(a)] *)
Fixpoint for_each {A : Type} (l : list A) (body : A -> M unit) : M unit :=
  match l with
  | [] => ret tt
  | a :: l' => body a >> for_each l' body
  end.

(** [[body(a) for a in l]] *)
Fixpoint list_comp {A B : Type} (l : list A) (body : A -> M B) : M (list B) :=
  match l with
  | [] => ret []
  | a :: l' => b <- body a ;; bs <- list_comp l' body ;; ret (b :: bs)
  end.

(** [{key(a): val(a) for a in l}], filling [acc] from left to right *)
Fixpoint dict_comp {A : Type} (l : list A) (body : A -> M (string * value))
  (acc : dict value) : M (dict value) :=
  match l with
  | [] => ret acc
  | a :: l' => kv <- body a ;; dict_comp l' body (dict_set (fst kv) (snd kv) acc)
  end.

Definition set_heap (h : list obj) (w : world) : world :=
  {| heap := h; sharedServices := sharedServices w; motors := motors w;
     quadmon := quadmon w; atexit := atexit w |}.

Definition set_sharedServices (d : dict ref) : M unit := fun w =>
  (Returns tt,
   {| heap := heap w; sharedServices := d; motors := motors w;
      quadmon := quadmon w; atexit := atexit w |}).

Definition set_motors (d : dict ref) : M unit := fun w =>
  (Returns tt,
   {| heap := heap w; sharedServices := sharedServices w; motors := d;
      quadmon := quadmon w; atexit := atexit w |}).

Definition set_quadmon (q : option ref) : M unit := fun w =>
  (Returns tt,
   {| heap := heap w; sharedServices := sharedServices w; motors := motors w;
      quadmon := q; atexit := atexit w |}).

Definition atexit_register : M unit := fun w =>
  (Returns tt,
   {| heap := heap w; sharedServices := sharedServices w; motors := motors w;
      quadmon := quadmon w; atexit := S (atexit w) |}).

Definition get_motors : M (dict ref) := fun w => (Returns (motors w), w).

Definition get_sharedServices : M (dict ref) := fun w =>
  (Returns (sharedServices w), w).

(** a new object gets the next free reference *)
Definition alloc (o : obj) : M ref := fun w =>
  (Returns (length (heap w)), set_heap (heap w ++ [o]) w).

(** running a constructor: the object is stored when it returns *)
Definition construct {S : Type} (c : outcome S) (wrap : S -> obj) : M ref :=
  match c with
  | Returns s => alloc (wrap s)
  | Raises e => raise e
  end.

(** [self.motors[n]] *)
Definition motors_item (n : string) : M ref :=
  ms <- get_motors ;;
  match dict_get n ms with
  | Some r => ret r
  | None => raise (KeyError n)
  end.

(** [m.name] *)
Definition unit_name (m : ref) : M string := fun w =>
  match heap w !! m with
  | Some (OUnit n _) => (Returns n, w)
  | _ => (Raises (AttributeError "name"), w)
  end.

(** [getattr(m, method)] applied to [args]: the unit's state is replaced by
    the state the call leaves, whether it returns or raises.  The call is
    followed on the unit alone, not into the services the unit borrowed. *)
Definition invoke (m : ref) (method : string) (args : list value) : M value :=
  fun w =>
    match heap w !! m with
    | Some (OUnit n s) =>
        let (res, s') := call method args s in
        (res, set_heap (<[m := OUnit n s']> (heap w)) w)
    | _ => (Raises (AttributeError method), w)
    end.

(** a call whose result is dropped, as in [u.stop()] *)
Definition invoke_ (method : string) (m : ref) : M unit :=
  invoke m method [] >> ret tt.

(** *** Construction *)

Definition is_quad (d : mdef kwargs) : option (list Z) :=
  match md_rotationsense d with
  | Some rs =>
      match pins rs with
      | Some ps => if Nat.eqb (length ps) 2 then Some ps else None
      | None => None
      end
  | None => None
  end.

(** the loop that fills [qd] *)
Fixpoint quad_lines (motordefs : list (mdef kwargs)) (qd : dict (list Z))
  : dict (list Z) :=
  match motordefs with
  | [] => qd
  | d :: ds =>
      match is_quad d with
      | Some ps => quad_lines ds (dict_set (md_name d) ps qd)
      | None => quad_lines ds qd
      end
  end.

(** [for mdef in motordefs] needs an iterable: the default [None] is not *)
Definition iterate (motordefs : option (list (mdef kwargs)))
  : M (list (mdef kwargs)) :=
  match motordefs with
  | Some l => ret l
  | None => raise (TypeError "'NoneType' object is not iterable")
  end.

(** Modelled from the spec: the motor class is not part of motorset.py.
    A Motor Unit's identity is its name, fixed at creation: the unit built
    from a specification carries that specification's ['name'] as its [name]
    attribute. *)
Definition unit_of (d : mdef kwargs) (s : ustate) : obj := OUnit (md_name d) s.

(** one round of [for mdef in motordefs] *)
Definition add_motor (d : mdef kwargs) : M unit :=
  u <- construct (new_unit d) (unit_of d) ;;
  ms <- get_motors ;;
  set_motors (dict_set (md_name d) u ms).

(** the [if quadmonitor is None ... else ...] block *)
Definition quadmon_setup (motordefs : option (list (mdef kwargs)))
  (quadmonitor : option kwargs) : M unit :=
  match quadmonitor with
  | None => set_quadmon None
  | Some qm =>
      defs <- iterate motordefs ;;
      match quad_lines defs [] with
      | [] => set_quadmon None
      | qd => q <- construct (new_monitor qd qm) OMonitor ;; set_quadmon (Some q)
      end
  end.

Definition __init__ (motordefs : option (list (mdef kwargs)))
  (quadmonitor : option kwargs) : M unit :=
  set_sharedServices [] >>
  set_motors [] >>
  quadmon_setup motordefs quadmonitor >>
  defs <- iterate motordefs ;;
  for_each defs add_motor >>
  atexit_register.

(** every constructor that [__init__] would run returns *)
Definition constructible (motordefs : list (mdef kwargs))
  (quadmonitor : option kwargs) : bool :=
  forallb (fun d => returned (new_unit d)) motordefs
  && match quadmonitor with
     | None => true
     | Some qm =>
         match quad_lines motordefs [] with
         | [] => true
         | qd => returned (new_monitor qd qm)
         end
     end.

(** a specification that declares exactly two sensing lines *)
Definition has_quad (d : mdef kwargs) : bool :=
  match is_quad d with
  | Some _ => true
  | None => false
  end.

(** *** The shared-service broker *)

Definition needservice (sname className : string) (servargs : kwargs) : M ref :=
  ss <- get_sharedServices ;;
  (if dict_mem sname ss then ret tt
   else
     serv <- construct (new_service className servargs) OService ;;
     ss' <- get_sharedServices ;;
     set_sharedServices (dict_set sname serv ss')) >>
  ss'' <- get_sharedServices ;;
  match dict_get sname ss'' with
  | Some r => ret r
  | None => raise (KeyError sname)
  end.

(** *** Dispatch *)

Definition _listcall (units : selector) (method : string) (args : list value)
  : M pyval :=
  match units with
  | SelNone =>
      ms <- get_motors ;;
      d <- dict_comp (dict_values ms)
             (fun m => n <- unit_name m ;; v <- invoke m method args ;; ret (n, v))
             [] ;;
      ret (PDict d)
  | SelName n =>
      m <- motors_item n ;;
      v <- invoke m method args ;;
      ret (PVal v)
  | SelList l =>
      d <- dict_comp l
             (fun n => m <- motors_item n ;; v <- invoke m method args ;; ret (n, v))
             [] ;;
      ret (PDict d)
  end.

Definition lastMotorPosition (mlist : selector) : M pyval :=
  _listcall mlist "lastPosition" [].

Definition lastMotorRPM (mlist : selector) : M pyval :=
  _listcall mlist "lastRPM" [].

Definition motorInvert (inv : value) (mlist : selector) : M pyval :=
  _listcall mlist "invert" [inv].

Definition motorFrequency (f : value) (mlist : selector) : M pyval :=
  _listcall mlist "frequency" [f].

Definition motorDC (dutycycle : value) (mlist : selector) : M pyval :=
  _listcall mlist "DC" [dutycycle].

Definition motorSpeedLimits (mlist : selector) : M pyval :=
  _listcall mlist "speedLimits" [].

Definition motorSpeed (speed : value) (mlist : selector) : M pyval :=
  _listcall mlist "speed" [speed].

Definition motorFeedbackParam (paramdetails : value) (mlist : selector) : M pyval :=
  _listcall mlist "feedbackParam" [paramdetails].

Definition motorTargetSpeed (tspeed : value) (mlist : selector) : M pyval :=
  _listcall mlist "targetSpeed" [tspeed].

(** [self.stopMotor()] as [_delist] calls it on an unknown name: with
    [mlist=None] the units are all the motors, in iteration order. *)
Definition stopMotor_all : M unit :=
  ms <- get_motors ;;
  for_each (dict_values ms) (invoke_ "stop").

Definition unknown_motor (u : string) : exn :=
  ValueError (u ++ " is not a known motor name").

(** the validation loop of [_delist] over a collection of names *)
Fixpoint check_names (units : list string) : M unit :=
  match units with
  | [] => ret tt
  | u :: rest =>
      ms <- get_motors ;;
      if dict_mem u ms then check_names rest
      else stopMotor_all >> raise (unknown_motor u)
  end.

Definition _delist (units : selector) : M (list ref) :=
  match units with
  | SelNone => ms <- get_motors ;; ret (dict_values ms)
  | SelName n =>
      ms <- get_motors ;;
      match dict_get n ms with
      | Some r => ret [r]
      | None => raise (unknown_motor n)
      end
  | SelList l => check_names l >> list_comp l motors_item
  end.

Definition stopMotor (mlist : selector) : M pyval :=
  us <- _delist mlist ;;
  for_each us (invoke_ "stop") >>
  ret PNone.

(** *** Shutdown, tick, export

    [time.sleep(.5)] has no effect on the store; the [quadmon] branch of
    [close] is [pass]. *)

Definition close : M unit :=
  ms <- _delist SelNone ;;
  for_each ms (invoke_ "close") >>
  set_motors [].

Definition ticker : M unit :=
  ms <- get_motors ;;
  for_each (dict_values ms) (invoke_ "ticker").

(** the list under ['motordefs'] of the exported dict *)
Definition odef : M (list value) :=
  ms <- get_motors ;;
  list_comp (dict_values ms) (fun m => invoke m "odef" []).

(** *** Well-formed worlds

    Every key of [motors] is bound to a stored motor unit that carries that
    key as its name, and no key occurs twice. *)

Definition is_unit_named (k : string) (o : option obj) : bool :=
  match o with
  | Some (OUnit n _) => String.eqb n k
  | _ => false
  end.

Definition wf (w : world) : bool :=
  distinct (dict_keys (motors w))
  && forallb (fun kr => is_unit_named (fst kr) (heap w !! snd kr)) (motors w).

(** the number of monitor objects in a store *)
Fixpoint monitors (h : list obj) : nat :=
  match h with
  | [] => 0
  | OMonitor _ :: h' => S (monitors h')
  | _ :: h' => monitors h'
  end.

(** the last specification of a list that carries a given name *)
Fixpoint last_named (n : string) (defs : list (mdef kwargs))
  : option (mdef kwargs) :=
  match defs with
  | [] => None
  | d :: ds =>
      match last_named n ds with
      | Some d' => Some d'
      | None => if String.eqb (md_name d) n then Some d else None
      end
  end.

(** the line pair of the last specification with a given name among those
    that declare exactly two lines *)
Fixpoint last_quad (n : string) (defs : list (mdef kwargs)) : option (list Z) :=
  match defs with
  | [] => None
  | d :: ds =>
      match last_quad n ds with
      | Some ps => Some ps
      | None =>
          if String.eqb (md_name d) n then is_quad d else None
      end
  end.

(** *** Relations between the world before and after a computation

    [preserves R m]: whatever [m] does, returning or raising, the world it
    leaves is [R]-related to the one it started from. *)

Definition preserves (R : world -> world -> Prop) {A : Type} (m : M A) : Prop :=
  forall w, R w (snd (m w)).

(** the motor mapping is the same: names, order and bound references *)
Definition keeps_motors (w w' : world) : Prop := motors w' = motors w.

(** a stored object is only ever replaced by a unit of the same name *)
Definition unit_step (o o' : option obj) : Prop :=
  match o with
  | Some (OUnit n _) => exists s', o' = Some (OUnit n s')
  | _ => o' = o
  end.

(** only the states of motor units differ between two worlds, apart from
    the motor mapping *)
Definition units_only (w w' : world) : Prop :=
  (forall r, unit_step (heap w !! r) (heap w' !! r))
  /\ sharedServices w' = sharedServices w
  /\ quadmon w' = quadmon w
  /\ atexit w' = atexit w.

(** objects were only added to the store, no monitor among them, and
    [quadmon], the broker and the exit hooks are as before *)
Definition grows (w w' : world) : Prop :=
  (forall i o, heap w !! i = Some o -> heap w' !! i = Some o)
  /\ monitors (heap w') = monitors (heap w)
  /\ quadmon w' = quadmon w
  /\ sharedServices w' = sharedServices w
  /\ atexit w' = atexit w.

(** well-formedness is kept *)
Definition keeps_wf (w w' : world) : Prop := wf w = true -> wf w' = true.

(** *** Selectors and units a call can serve *)

(** every name of the selector is a key of the motor mapping *)
Definition valid (units : selector) (w : world) : bool :=
  match units with
  | SelNone => true
  | SelName n => dict_mem n (motors w)
  | SelList l => forallb (fun n => dict_mem n (motors w)) l
  end.

(** a name is bound to a stored unit on whose present state the call of
    [method] with [args] returns *)
Definition returns_on (method : string) (args : list value) (w : world)
  (k : string) : bool :=
  match dict_get k (motors w) with
  | Some r =>
      match heap w !! r with
      | Some (OUnit _ s) => returned (fst (call method args s))
      | _ => false
      end
  | None => false
  end.

End Engine.

(** ** Two concrete motor sets

    The two-motor set of the configuration file, [left] and [right], the
    second with a quadrature pair, built with a shared monitor; and a
    specification list that names [left] twice. *)

Definition left_def : mdef string :=
  {| md_name := "left"; md_rotationsense := None;
     md_rest := "dcmotorbasic.motor" |}.

Definition right_def : mdef string :=
  {| md_name := "right";
     md_rotationsense := Some {| pins := Some [17%Z; 18%Z] |};
     md_rest := "dcmotorbasic.motor" |}.

Definition left_again : mdef string :=
  {| md_name := "left";
     md_rotationsense := Some {| pins := Some [22%Z; 23%Z] |};
     md_rest := "dcmotorbasic.motor" |}.

Definition two_motors : world :=
  snd (__init__ (Some [left_def; right_def]) (Some "quadmonitor") blank).

(** the same set with both motors driven at a duty cycle of 0.3 *)
Definition running : world :=
  snd (motorDC (VNum (3 # 10)) SelNone two_motors).

(** the same set after a unit has asked the broker for a shared service *)
Definition with_service : world :=
  snd (needservice "quadrature" "quadmonitor.monitor" "17,18" two_motors).

(** the duty cycle of the unit bound to a name, when there is one *)
Definition duty_of (k : string) (w : world) : option Q :=
  match dict_get k (motors w) with
  | Some r =>
      match heap w !! r with
      | Some (OUnit _ s) => Some (dutycycle s)
      | _ => None
      end
  | None => None
  end.

(** ** A motor set with and without feedback control *)

(** Modelled from the spec: the motor class is not part of motorset.py.  A
    Motor Unit with no feedback controller accepts only direct duty-cycle
    commands; one with a feedback controller additionally accepts
    target-speed commands and takes part in the tick.  The flag says whether
    the unit has a feedback controller; a target-speed or feedback-parameter
    call on a unit without one is rejected, and its tick is a no-op. *)
Definition strict_call (meth : string) (args : list sim_value)
  (u : bool * sim_unit) : outcome sim_value * (bool * sim_unit) :=
  if (String.eqb meth "targetSpeed" || String.eqb meth "feedbackParam")
     && negb (fst u)
  then (Raises (CollaboratorError "no feedback controller"), u)
  else if String.eqb meth "ticker" && negb (fst u) then (Returns VNone, u)
  else let (o, s') := sim_call meth args (snd u) in (o, (fst u, s')).

(** Modelled from the spec: logger.makeClassInstance is not part of
    motorset.py.  The remaining keys of a specification are its
    ['className'] and whether it configures a feedback controller. *)
Definition strict_new_unit (d : mdef (string * bool))
  : outcome (bool * sim_unit) :=
  if String.eqb (fst (md_rest d)) "dcmotorbasic.motor"
  then Returns (snd (md_rest d), sim_fresh)
  else Raises (CollaboratorError "unknown class").

(** Modelled from the spec: the collaborators of a motor set whose units
    may lack a feedback controller, none of which is part of motorset.py. *)
Definition strict : Collaborators := {|
  kwargs := string * bool;
  value := sim_value;
  ustate := bool * sim_unit;
  sstate := string * string;
  qstate := dict (list Z);
  new_unit := strict_new_unit;
  new_monitor := fun qd q => sim_new_monitor qd (fst q);
  new_service := fun c a => sim_new_service c (fst a);
  call := strict_call
|}.

Definition feedback_left : mdef (string * bool) :=
  {| md_name := "left"; md_rotationsense := None;
     md_rest := ("dcmotorbasic.motor", true) |}.

Definition plain_right : mdef (string * bool) :=
  {| md_name := "right"; md_rotationsense := None;
     md_rest := ("dcmotorbasic.motor", false) |}.

(** [left] has a feedback controller, [right] has none *)
Definition mixed : @world strict :=
  snd (@__init__ strict (Some [feedback_left; plain_right]) None
         (@blank strict)).

(** a specification whose class does not exist *)
Definition broken_def : mdef string :=
  {| md_name := "middle"; md_rotationsense := None;
     md_rest := "nosuch.motor" |}.

(** specifications whose rotation sense does not declare two lines: one
    line, three lines, and a ['rotationsense'] without ['pins'] *)
Definition one_line_def : mdef string :=
  {| md_name := "one"; md_rotationsense := Some {| pins := Some [5%Z] |};
     md_rest := "dcmotorbasic.motor" |}.

Definition three_lines_def : mdef string :=
  {| md_name := "three";
     md_rotationsense := Some {| pins := Some [5%Z; 6%Z; 7%Z] |};
     md_rest := "dcmotorbasic.motor" |}.

Definition no_pins_def : mdef string :=
  {| md_name := "nopins"; md_rotationsense := Some {| pins := None |};
     md_rest := "dcmotorbasic.motor" |}.

(** the two-motor set with a target speed set on both motors *)
Definition regulated : world :=
  snd (motorTargetSpeed (VNum 100) SelNone two_motors).

(** ** Dictionaries and name lists *)

Section DictFacts.

Context {V : Type}.

Lemma mem_In (k : string) (l : list string) : mem k l = true <-> In k l.
Proof.
  induction l as [|k' l IH]; simpl.
  - split; [discriminate | tauto].
  - destruct (String.eqb_spec k k') as [->|Hne].
    + split; auto.
    + rewrite IH. split; [auto | intros [E|E]; [congruence | exact E]].
Qed.

Lemma dict_get_set_eq (k : string) (v : V) (d : dict V) :
  dict_get k (dict_set k v d) = Some v.
Proof.
  induction d as [|[k' v'] d IH]; simpl.
  - now rewrite String.eqb_refl.
  - destruct (String.eqb_spec k k') as [->|Hne]; simpl.
    + now rewrite String.eqb_refl.
    + destruct (String.eqb_spec k k'); [contradiction | exact IH].
Qed.

Lemma dict_get_set_ne (k k' : string) (v : V) (d : dict V) :
  k <> k' -> dict_get k' (dict_set k v d) = dict_get k' d.
Proof.
  intros Hne. induction d as [|[k0 v0] d IH]; simpl.
  - destruct (String.eqb_spec k' k); [congruence | reflexivity].
  - destruct (String.eqb_spec k k0) as [->|Hk]; simpl.
    + destruct (String.eqb_spec k' k0); [congruence | reflexivity].
    + now rewrite IH.
Qed.

Lemma dict_get_None_mem (k : string) (d : dict V) :
  dict_get k d = None <-> mem k (dict_keys d) = false.
Proof.
  induction d as [|[k' v'] d IH]; simpl.
  - tauto.
  - destruct (String.eqb k k'); [split; discriminate | exact IH].
Qed.

Lemma dict_mem_keys (k : string) (d : dict V) :
  dict_mem k d = mem k (dict_keys d).
Proof.
  unfold dict_mem. destruct (dict_get k d) eqn:E.
  - destruct (mem k (dict_keys d)) eqn:E'; [reflexivity|].
    apply dict_get_None_mem in E'. congruence.
  - symmetry. now apply dict_get_None_mem.
Qed.

Lemma dict_set_new (k : string) (v : V) (d : dict V) :
  mem k (dict_keys d) = false -> dict_set k v d = d ++ [(k, v)].
Proof.
  induction d as [|[k' v'] d IH]; simpl; [reflexivity|].
  destruct (String.eqb k k'); [discriminate|].
  intros E. now rewrite IH.
Qed.

Lemma dict_keys_set (k : string) (v : V) (d : dict V) :
  dict_keys (dict_set k v d)
  = if mem k (dict_keys d) then dict_keys d else dict_keys d ++ [k].
Proof.
  induction d as [|[k' v'] d IH]; simpl; [reflexivity|].
  destruct (String.eqb k k'); simpl; [reflexivity|].
  rewrite IH. now destruct (mem k (dict_keys d)).
Qed.

Lemma dict_get_In (k : string) (v : V) (d : dict V) :
  dict_get k d = Some v -> In (k, v) d.
Proof.
  induction d as [|[k' v'] d IH]; simpl; [discriminate|].
  destruct (String.eqb_spec k k') as [->|Hne].
  - intros [= ->]. now left.
  - intros E. right. now apply IH.
Qed.

Lemma In_dict_get (k : string) (v : V) (d : dict V) :
  distinct (dict_keys d) = true -> In (k, v) d -> dict_get k d = Some v.
Proof.
  induction d as [|[k' v'] d IH]; simpl; [tauto|].
  intros Hd [E|E].
  - injection E as -> ->. now rewrite String.eqb_refl.
  - apply andb_prop in Hd as [Hn Hd].
    destruct (String.eqb_spec k k') as [->|Hne]; [|now apply IH].
    apply negb_true_iff in Hn.
    assert (Hin : In k' (dict_keys d)).
    { unfold dict_keys. change k' with (fst (k', v)). now apply in_map. }
    apply mem_In in Hin. congruence.
Qed.

End DictFacts.

Lemma mem_app (k : string) (l1 l2 : list string) :
  mem k (l1 ++ l2) = mem k l1 || mem k l2.
Proof.
  induction l1 as [|k' l1 IH]; simpl; [reflexivity|].
  now destruct (String.eqb k k').
Qed.

Lemma distinct_snoc (k : string) (l : list string) :
  distinct l = true -> mem k l = false -> distinct (l ++ [k]) = true.
Proof.
  induction l as [|k' l IH]; simpl; [reflexivity|].
  intros Hd Hm. apply andb_prop in Hd as [Hn Hd].
  destruct (String.eqb_spec k k') as [->|Hne]; [discriminate|].
  rewrite IH by assumption. rewrite mem_app. simpl.
  apply negb_true_iff in Hn. rewrite Hn. simpl.
  destruct (String.eqb_spec k' k); [congruence | reflexivity].
Qed.

Lemma dict_set_distinct {V : Type} (k : string) (v : V) (d : dict V) :
  distinct (dict_keys d) = true -> distinct (dict_keys (dict_set k v d)) = true.
Proof.
  intros Hd. rewrite dict_keys_set.
  destruct (mem k (dict_keys d)) eqn:E; [exact Hd|].
  now apply distinct_snoc.
Qed.

(** ** What a computation leaves alone *)

Section Frame.

Context `{Collaborators}.

#[export] Instance keeps_motors_preorder : PreOrder keeps_motors.
Proof.
  split.
  - intros w. reflexivity.
  - intros w1 w2 w3 H12 H23. unfold keeps_motors in *. congruence.
Qed.

Lemma unit_step_refl (o : option obj) : unit_step o o.
Proof. destruct o as [[n s| |]|]; simpl; eauto. Qed.

Lemma unit_step_trans (o1 o2 o3 : option obj) :
  unit_step o1 o2 -> unit_step o2 o3 -> unit_step o1 o3.
Proof.
  destruct o1 as [[n s| |]|]; simpl.
  - intros [s' ->]. simpl. auto.
  - intros ->. auto.
  - intros ->. auto.
  - intros ->. auto.
Qed.

#[export] Instance units_only_preorder : PreOrder units_only.
Proof.
  split.
  - intros w. repeat split. intros r. apply unit_step_refl.
  - intros w1 w2 w3 (A1 & B1 & C1 & D1) (A2 & B2 & C2 & D2).
    repeat split; try congruence.
    intros r. eapply unit_step_trans; eauto.
Qed.

Section Generic.

Context (R : world -> world -> Prop) `{!PreOrder R}.

Lemma preserves_ret {A : Type} (a : A) : preserves R (ret a).
Proof. intros w. simpl. reflexivity. Qed.

Lemma preserves_raise {A : Type} (e : exn) : preserves R (@raise _ A e).
Proof. intros w. simpl. reflexivity. Qed.

Lemma preserves_bind {A B : Type} (m : M A) (f : A -> M B) :
  preserves R m -> (forall a, preserves R (f a)) -> preserves R (bind m f).
Proof.
  intros Hm Hf w. unfold bind. specialize (Hm w).
  destruct (m w) as [[a|e] w1]; simpl in *.
  - etransitivity; [exact Hm | apply Hf].
  - exact Hm.
Qed.

Lemma preserves_for_each {A : Type} (l : list A) (body : A -> M unit) :
  (forall a, preserves R (body a)) -> preserves R (for_each l body).
Proof.
  intros Hb. induction l as [|a l IH]; simpl.
  - apply preserves_ret.
  - apply preserves_bind; auto.
Qed.

Lemma preserves_list_comp {A B : Type} (l : list A) (body : A -> M B) :
  (forall a, preserves R (body a)) -> preserves R (list_comp l body).
Proof.
  intros Hb. induction l as [|a l IH]; simpl.
  - apply preserves_ret.
  - apply preserves_bind; [auto|]. intros b.
    apply preserves_bind; [auto|]. intros bs. apply preserves_ret.
Qed.

Lemma preserves_dict_comp {A : Type} (l : list A)
  (body : A -> M (string * value)) (acc : dict value) :
  (forall a, preserves R (body a)) -> preserves R (dict_comp l body acc).
Proof.
  intros Hb. revert acc. induction l as [|a l IH]; intros acc; simpl.
  - apply preserves_ret.
  - apply preserves_bind; auto.
Qed.

Lemma preserves_get_motors : preserves R get_motors.
Proof. intros w. simpl. reflexivity. Qed.

Lemma preserves_get_sharedServices : preserves R get_sharedServices.
Proof. intros w. simpl. reflexivity. Qed.

Lemma preserves_unit_name (m : ref) : preserves R (unit_name m).
Proof.
  intros w. unfold unit_name.
  destruct (heap w !! m) as [[n s| |]|]; simpl; reflexivity.
Qed.

Lemma preserves_motors_item (n : string) : preserves R (motors_item n).
Proof.
  apply preserves_bind; [apply preserves_get_motors|]. intros ms.
  destruct (dict_get n ms); [apply preserves_ret | apply preserves_raise].
Qed.

(** every loop of the dispatch layer is built from reads of [self], name
    reads and unit calls *)
Lemma preserves_listcall (units : selector) (method : string)
  (args : list value) :
  (forall m meth a, preserves R (invoke m meth a)) ->
  preserves R (_listcall units method args).
Proof.
  intros Hi. destruct units as [|n|l]; simpl.
  - apply preserves_bind; [apply preserves_get_motors|]. intros ms.
    apply preserves_bind; [|intros; apply preserves_ret].
    apply preserves_dict_comp. intros m.
    apply preserves_bind; [apply preserves_unit_name|]. intros k.
    apply preserves_bind; [apply Hi|]. intros v. apply preserves_ret.
  - apply preserves_bind; [apply preserves_motors_item|]. intros m.
    apply preserves_bind; [apply Hi|]. intros v. apply preserves_ret.
  - apply preserves_bind; [|intros; apply preserves_ret].
    apply preserves_dict_comp. intros k.
    apply preserves_bind; [apply preserves_motors_item|]. intros m.
    apply preserves_bind; [apply Hi|]. intros v. apply preserves_ret.
Qed.

Lemma preserves_invoke_ (method : string) (m : ref) :
  (forall m meth a, preserves R (invoke m meth a)) ->
  preserves R (invoke_ method m).
Proof.
  intros Hi. apply preserves_bind; [apply Hi|]. intros v. apply preserves_ret.
Qed.

Lemma preserves_stopMotor_all :
  (forall m meth a, preserves R (invoke m meth a)) ->
  preserves R stopMotor_all.
Proof.
  intros Hi. apply preserves_bind; [apply preserves_get_motors|]. intros ms.
  apply preserves_for_each. intros m. now apply preserves_invoke_.
Qed.

Lemma preserves_check_names (units : list string) :
  (forall m meth a, preserves R (invoke m meth a)) ->
  preserves R (check_names units).
Proof.
  intros Hi. induction units as [|u rest IH]; simpl.
  - apply preserves_ret.
  - apply preserves_bind; [apply preserves_get_motors|]. intros ms.
    destruct (dict_mem u ms); [exact IH|].
    apply preserves_bind; [now apply preserves_stopMotor_all|].
    intros _. apply preserves_raise.
Qed.

Lemma preserves_delist (units : selector) :
  (forall m meth a, preserves R (invoke m meth a)) ->
  preserves R (_delist units).
Proof.
  intros Hi. destruct units as [|n|l]; simpl.
  - apply preserves_bind; [apply preserves_get_motors|]. intros ms.
    apply preserves_ret.
  - apply preserves_bind; [apply preserves_get_motors|]. intros ms.
    destruct (dict_get n ms); [apply preserves_ret | apply preserves_raise].
  - apply preserves_bind; [now apply preserves_check_names|]. intros _.
    apply preserves_list_comp. intros k. apply preserves_motors_item.
Qed.

Lemma preserves_stopMotor (mlist : selector) :
  (forall m meth a, preserves R (invoke m meth a)) ->
  preserves R (stopMotor mlist).
Proof.
  intros Hi. apply preserves_bind; [now apply preserves_delist|]. intros us.
  apply preserves_bind; [|intros; apply preserves_ret].
  apply preserves_for_each. intros m. now apply preserves_invoke_.
Qed.

Lemma preserves_ticker :
  (forall m meth a, preserves R (invoke m meth a)) -> preserves R ticker.
Proof.
  intros Hi. apply preserves_bind; [apply preserves_get_motors|]. intros ms.
  apply preserves_for_each. intros m. now apply preserves_invoke_.
Qed.

Lemma preserves_odef :
  (forall m meth a, preserves R (invoke m meth a)) -> preserves R odef.
Proof.
  intros Hi. apply preserves_bind; [apply preserves_get_motors|]. intros ms.
  apply preserves_list_comp. intros m. apply Hi.
Qed.

End Generic.

(** a unit call touches the store at the unit's reference and nowhere else *)
Lemma invoke_keeps_motors (m : ref) (method : string) (args : list value) :
  preserves keeps_motors (invoke m method args).
Proof.
  intros w. unfold invoke, keeps_motors.
  destruct (heap w !! m) as [[n s| |]|]; try reflexivity.
  destruct (call method args s); reflexivity.
Qed.

Lemma invoke_units_only (m : ref) (method : string) (args : list value) :
  preserves units_only (invoke m method args).
Proof.
  intros w. unfold invoke.
  destruct (heap w !! m) as [[n s| |]|] eqn:E; try reflexivity.
  destruct (call method args s) as [res s'].
  unfold units_only, set_heap.
  cbn [snd heap sharedServices quadmon atexit].
  repeat split. intros r.
  destruct (decide (r = m)) as [Heq|Hne].
  - subst r. rewrite E. simpl. exists s'.
    apply list_lookup_insert_eq. now apply lookup_lt_Some in E.
  - rewrite list_lookup_insert_ne by congruence. apply unit_step_refl.
Qed.

End Frame.

(** ** Well-formed worlds and single steps *)

Section Steps.

Context `{Collaborators}.

Notation "x <- m ;; k" := (bind m (fun x => k))
  (at level 100, m at next level, right associativity).

Lemma wf_distinct (w : world) :
  wf w = true -> distinct (dict_keys (motors w)) = true.
Proof. unfold wf. intros E. now apply andb_prop in E as [E _]. Qed.

Lemma wf_lookup (w : world) (k : string) (r : ref) :
  wf w = true -> dict_get k (motors w) = Some r ->
  exists s, heap w !! r = Some (OUnit k s).
Proof.
  unfold wf. intros E Hk. apply andb_prop in E as [_ E].
  rewrite forallb_forall in E. specialize (E _ (dict_get_In _ _ _ Hk)).
  simpl in E. destruct (heap w !! r) as [[n s| |]|]; try discriminate.
  apply String.eqb_eq in E. subst n. eauto.
Qed.

(** two names bound to one reference are one name *)
Lemma wf_inj (w : world) (k1 k2 : string) (r : ref) :
  wf w = true -> dict_get k1 (motors w) = Some r ->
  dict_get k2 (motors w) = Some r -> k1 = k2.
Proof.
  intros Hwf H1 H2.
  destruct (wf_lookup _ _ _ Hwf H1) as [s1 E1].
  destruct (wf_lookup _ _ _ Hwf H2) as [s2 E2]. congruence.
Qed.

Lemma wf_units_only (w w' : world) :
  units_only w w' -> motors w' = motors w -> wf w = true -> wf w' = true.
Proof.
  intros (Hu & _) Hm. unfold wf. rewrite Hm. intros E.
  apply andb_prop in E as [E1 E2]. rewrite E1. simpl.
  rewrite forallb_forall in *. intros kr Hin. specialize (E2 kr Hin).
  specialize (Hu (snd kr)).
  destruct (heap w !! snd kr) as [[n s| |]|]; try discriminate.
  destruct Hu as [s' ->]. exact E2.
Qed.

Lemma invoke_unit (w : world) (m : ref) (n : string) (s : ustate)
  (method : string) (args : list value) :
  heap w !! m = Some (OUnit n s) ->
  invoke m method args w
  = (fst (call method args s),
     set_heap (<[m := OUnit n (snd (call method args s))]> (heap w)) w).
Proof.
  intros E. unfold invoke. rewrite E. now destruct (call method args s).
Qed.

Lemma invoke_no_unit (w : world) (m : ref) (method : string)
  (args : list value) :
  (forall n s, heap w !! m <> Some (OUnit n s)) ->
  invoke m method args w = (Raises (AttributeError method), w).
Proof.
  intros E. unfold invoke.
  destruct (heap w !! m) as [[n s| |]|]; try reflexivity.
  now destruct (E n s).
Qed.

(** one step of the comprehension over names *)
Lemma by_name_step (w : world) (k : string) (r : ref) (s : ustate)
  (method : string) (args : list value) :
  dict_get k (motors w) = Some r -> heap w !! r = Some (OUnit k s) ->
  (m <- motors_item k ;; v <- invoke m method args ;; ret (k, v)) w
  = (match fst (call method args s) with
     | Returns v => Returns (k, v)
     | Raises e => Raises e
     end,
     set_heap (<[r := OUnit k (snd (call method args s))]> (heap w)) w).
Proof.
  intros Hk Hs. unfold bind, motors_item, get_motors, bind, ret.
  rewrite Hk. rewrite (invoke_unit _ _ _ _ _ _ Hs).
  now destruct (fst (call method args s)).
Qed.

Lemma by_name_unknown (w : world) (k : string) (method : string)
  (args : list value) :
  dict_get k (motors w) = None ->
  (m <- motors_item k ;; v <- invoke m method args ;; ret (k, v)) w
  = (Raises (KeyError k), w).
Proof.
  intros Hk. unfold bind, motors_item, get_motors, bind, raise.
  now rewrite Hk.
Qed.

(** one step of the comprehension over the stored units *)
Lemma by_ref_step (w : world) (k : string) (r : ref) (s : ustate)
  (method : string) (args : list value) :
  heap w !! r = Some (OUnit k s) ->
  (n <- unit_name r ;; v <- invoke r method args ;; ret (n, v)) w
  = (match fst (call method args s) with
     | Returns v => Returns (k, v)
     | Raises e => Raises e
     end,
     set_heap (<[r := OUnit k (snd (call method args s))]> (heap w)) w).
Proof.
  intros Hs. unfold bind, unit_name, ret.
  rewrite Hs. rewrite (invoke_unit _ _ _ _ _ _ Hs).
  now destruct (fst (call method args s)).
Qed.

Lemma invoke__step (w : world) (r : ref) (k : string) (s : ustate)
  (method : string) :
  heap w !! r = Some (OUnit k s) ->
  invoke_ method r w
  = (match fst (call method [] s) with
     | Returns _ => Returns tt
     | Raises e => Raises e
     end,
     set_heap (<[r := OUnit k (snd (call method [] s))]> (heap w)) w).
Proof.
  intros Hs. unfold invoke_, bind, ret.
  rewrite (invoke_unit _ _ _ _ _ _ Hs).
  now destruct (fst (call method [] s)).
Qed.

Lemma for_each_cons {A : Type} (a : A) (l : list A) (body : A -> M unit)
  (w : world) :
  for_each (a :: l) body w
  = match body a w with
    | (Returns _, w1) => for_each l body w1
    | (Raises e, w1) => (Raises e, w1)
    end.
Proof. reflexivity. Qed.

Lemma dict_comp_cons {A : Type} (a : A) (l : list A)
  (body : A -> M (string * value)) (acc : dict value) (w : world) :
  dict_comp (a :: l) body acc w
  = match body a w with
    | (Returns kv, w1) => dict_comp l body (dict_set (fst kv) (snd kv) acc) w1
    | (Raises e, w1) => (Raises e, w1)
    end.
Proof. reflexivity. Qed.

Lemma dict_comp_app {A : Type} (l1 l2 : list A)
  (body : A -> M (string * value)) :
  forall (acc : dict value) (w : world),
    dict_comp (l1 ++ l2) body acc w
    = match dict_comp l1 body acc w with
      | (Returns d, w1) => dict_comp l2 body d w1
      | (Raises e, w1) => (Raises e, w1)
      end.
Proof.
  induction l1 as [|a l1 IH]; intros acc w; [reflexivity|].
  simpl app. rewrite !dict_comp_cons.
  destruct (body a w) as [[kv|e] w1]; [apply IH | reflexivity].
Qed.

Lemma listcall_list (l : list string) (method : string) (args : list value)
  (w : world) :
  _listcall (SelList l) method args w
  = match dict_comp l
            (fun n => m <- motors_item n ;; v <- invoke m method args ;; ret (n, v))
            [] w with
    | (Returns d, w') => (Returns (PDict d), w')
    | (Raises e, w') => (Raises e, w')
    end.
Proof. reflexivity. Qed.

Lemma step_units_only (w : world) (r : ref) (k : string) (s s' : ustate) :
  heap w !! r = Some (OUnit k s) ->
  units_only w (set_heap (<[r := OUnit k s']> (heap w)) w).
Proof.
  intros Hs. unfold units_only, set_heap.
  cbn [heap sharedServices quadmon atexit]. repeat split. intros r'.
  destruct (decide (r' = r)) as [Heq|Hne].
  - subst r'. rewrite Hs. simpl. exists s'.
    apply list_lookup_insert_eq. now apply lookup_lt_Some in Hs.
  - rewrite list_lookup_insert_ne by congruence. apply unit_step_refl.
Qed.

Lemma step_wf (w : world) (r : ref) (k : string) (s s' : ustate) :
  wf w = true -> heap w !! r = Some (OUnit k s) ->
  wf (set_heap (<[r := OUnit k s']> (heap w)) w) = true.
Proof.
  intros Hwf Hs.
  apply (wf_units_only w); [|reflexivity|exact Hwf].
  eapply step_units_only; eauto.
Qed.

End Steps.

(** ** A batch over known names

    The comprehension of [_listcall] over a collection of names, all of them
    keys of the motor mapping, for a method that returns on every unit. *)

Section Batch.

Context `{Collaborators}.

Variables (method : string) (args : list value).

Hypothesis call_returns : forall s, returned (fst (call method args s)) = true.

Notation "x <- m ;; k" := (bind m (fun x => k))
  (at level 100, m at next level, right associativity).

Abbreviation by_name :=
  (fun n => m <- motors_item n ;; v <- invoke m method args ;; ret (n, v)).

Abbreviation by_ref :=
  (fun m => n <- unit_name m ;; v <- invoke m method args ;; ret (n, v)).

Lemma call_value (s : ustate) : exists v, fst (call method args s) = Returns v.
Proof.
  specialize (call_returns s).
  destruct (fst (call method args s)) as [v|e]; [eauto | discriminate].
Qed.

Lemma names_loop (l : list string) :
  forall (acc : dict value) (w : world),
    wf w = true ->
    forallb (fun n => dict_mem n (motors w)) l = true ->
    exists d w',
      dict_comp l by_name acc w = (Returns d, w')
      /\ wf w' = true
      /\ units_only w w'
      /\ motors w' = motors w
      /\ (forall k, mem k l = false -> dict_get k d = dict_get k acc)
      /\ (forall k r, dict_get k (motors w) = Some r -> mem k l = false ->
            heap w' !! r = heap w !! r)
      /\ (forall k r, mem k l = true -> dict_get k (motors w) = Some r ->
            exists s v, fst (call method args s) = Returns v
              /\ dict_get k d = Some v
              /\ heap w' !! r = Some (OUnit k (snd (call method args s))))
      /\ (distinct l = true ->
          forall k r s, mem k l = true -> dict_get k (motors w) = Some r ->
            heap w !! r = Some (OUnit k s) ->
            exists v, fst (call method args s) = Returns v
              /\ dict_get k d = Some v
              /\ heap w' !! r = Some (OUnit k (snd (call method args s))))
      /\ (distinct l = true ->
          (forall k, mem k l = true -> mem k (dict_keys acc) = false) ->
          dict_keys d = dict_keys acc ++ l).
Proof.
  induction l as [|a l IH]; intros acc w Hwf Hknown.
  - exists acc, w. simpl. repeat split; try reflexivity; try discriminate.
    + exact Hwf.
    + intros r. apply unit_step_refl.
    + intros _ _. now rewrite app_nil_r.
  - simpl in Hknown. apply andb_prop in Hknown as [Ha Hknown].
    unfold dict_mem in Ha.
    destruct (dict_get a (motors w)) as [r|] eqn:Er; [clear Ha|discriminate].
    destruct (wf_lookup _ _ _ Hwf Er) as [s Hs].
    destruct (call_value s) as [v Ev].
    set (s1 := snd (call method args s)) in *.
    set (w1 := set_heap (<[r := OUnit a s1]> (heap w)) w).
    assert (Hwf1 : wf w1 = true) by (eapply step_wf; eauto).
    assert (Hu1 : units_only w w1) by (eapply step_units_only; eauto).
    assert (Hr1 : heap w1 !! r = Some (OUnit a s1)).
    { unfold w1. simpl. apply list_lookup_insert_eq.
      now apply lookup_lt_Some in Hs. }
    assert (Hother : forall k r', dict_get k (motors w) = Some r' -> k <> a ->
                       heap w1 !! r' = heap w !! r').
    { intros k r' Hk Hne. unfold w1. simpl.
      apply list_lookup_insert_ne. intros ->.
      apply Hne. eapply wf_inj; eauto. }
    destruct (IH (dict_set a v acc) w1 Hwf1 Hknown)
      as (d & w' & Eq & Hwf' & Hu' & Hm' & DF & HF & Last & Once & Keys).
    assert (Hfinal : mem a l = false ->
              dict_get a d = Some v /\ heap w' !! r = Some (OUnit a s1)).
    { intros Hal. split.
      - rewrite (DF _ Hal). apply dict_get_set_eq.
      - rewrite (HF a r Er Hal). exact Hr1. }
    exists d, w'. split; [|split; [|split; [|split; [|split; [|split; [|split; [|split]]]]]]].
    + simpl. unfold bind at 1. rewrite (by_name_step _ _ _ _ _ _ Er Hs).
      rewrite Ev. exact Eq.
    + exact Hwf'.
    + etransitivity; eauto.
    + rewrite Hm'. reflexivity.
    + intros k Hk. simpl in Hk.
      destruct (String.eqb_spec k a) as [Heq|Hne]; [discriminate|].
      rewrite (DF _ Hk). apply dict_get_set_ne. congruence.
    + intros k r' Hkr Hk. simpl in Hk.
      destruct (String.eqb_spec k a) as [Heq|Hne]; [discriminate|].
      rewrite (HF k r' Hkr Hk). eapply Hother; eauto.
    + intros k r' Hk Hkr. simpl in Hk.
      destruct (mem k l) eqn:Ekl.
      * apply (Last k r' Ekl Hkr).
      * destruct (String.eqb_spec k a) as [Heq|Hne]; [subst k|discriminate].
        assert (r' = r) by congruence. subst r'.
        destruct (Hfinal Ekl) as [Hd Hh]. exists s, v. auto.
    + intros Hdist k r' s' Hk Hkr Hs'. simpl in Hdist.
      apply andb_prop in Hdist as [Hal Hdist]. apply negb_true_iff in Hal.
      simpl in Hk. destruct (String.eqb_spec k a) as [Heq|Hne].
      * subst k. assert (r' = r) by congruence. subst r'.
        assert (s' = s) by congruence. subst s'.
        destruct (Hfinal Hal) as [Hd Hh]. exists v. auto.
      * apply (Once Hdist k r' s' Hk Hkr).
        rewrite (Hother k r' Hkr Hne). exact Hs'.
    + intros Hdist Hacc. simpl in Hdist.
      apply andb_prop in Hdist as [Hal Hdist]. apply negb_true_iff in Hal.
      assert (Haa : mem a (dict_keys acc) = false).
      { apply Hacc. simpl. now rewrite String.eqb_refl. }
      rewrite Keys.
      * rewrite dict_keys_set, Haa. now rewrite <- app_assoc.
      * exact Hdist.
      * intros k Hk. rewrite dict_keys_set, Haa, mem_app. simpl.
        rewrite Hacc by (simpl; rewrite Hk; now destruct (String.eqb k a)).
        destruct (String.eqb_spec k a) as [Heq|Hne]; [congruence|reflexivity].
Qed.

Lemma keys_known {V : Type} (d : dict V) :
  forallb (fun n => dict_mem n d) (dict_keys d) = true.
Proof.
  apply forallb_forall. intros n Hn.
  rewrite dict_mem_keys. now apply mem_In.
Qed.

Lemma known_key {V : Type} (d : dict V) (k : string) (v : V) :
  dict_get k d = Some v -> mem k (dict_keys d) = true.
Proof.
  intros E. rewrite <- dict_mem_keys. unfold dict_mem. now rewrite E.
Qed.

(** with [mlist=None] the comprehension runs over the stored units and
    keys its results by their [name]; on a well-formed world that is the
    comprehension over the keys of the motor mapping *)
Lemma refs_as_names (ps : dict ref) :
  forall (acc : dict value) (w : world),
    wf w = true ->
    (forall k r, In (k, r) ps -> dict_get k (motors w) = Some r) ->
    dict_comp (dict_values ps) by_ref acc w
    = dict_comp (dict_keys ps) by_name acc w.
Proof.
  induction ps as [|[k r] ps IH]; intros acc w Hwf Hps; [reflexivity|].
  assert (Hk : dict_get k (motors w) = Some r) by (apply Hps; now left).
  destruct (wf_lookup _ _ _ Hwf Hk) as [s Hs].
  simpl. unfold bind at 1. rewrite (by_ref_step _ _ _ _ _ _ Hs).
  symmetry. unfold bind at 1. rewrite (by_name_step _ _ _ _ _ _ Hk Hs).
  destruct (fst (call method args s)) as [v|e]; [|reflexivity].
  symmetry. apply IH.
  - eapply step_wf; eauto.
  - intros k' r' Hin. simpl. apply Hps. now right.
Qed.

Lemma listcall_all_as_list (w : world) :
  wf w = true ->
  _listcall SelNone method args w
  = _listcall (SelList (dict_keys (motors w))) method args w.
Proof.
  intros Hwf. unfold _listcall, bind at 1, get_motors.
  unfold bind at 1. symmetry. unfold bind at 1. symmetry.
  rewrite (refs_as_names (motors w) [] w Hwf); [reflexivity|].
  intros k r Hin. apply In_dict_get; [now apply wf_distinct | exact Hin].
Qed.

(** an unknown name in a collection: [_listcall] has no validation pass,
    so the names before it are served, exactly as a call on them alone
    serves them, and then the lookup of the unknown name raises *)
Lemma listcall_unknown_name_partial (pre post : list string) (u : string)
  (w : world) :
  wf w = true ->
  forallb (fun n => dict_mem n (motors w)) pre = true ->
  dict_get u (motors w) = None ->
  exists d w',
    _listcall (SelList pre) method args w = (Returns (PDict d), w')
    /\ _listcall (SelList (pre ++ u :: post)) method args w
       = (Raises (KeyError u), w').
Proof.
  intros Hwf Hpre Hu.
  destruct (names_loop pre [] w Hwf Hpre)
    as (d & w' & Eq & _ & _ & Hm & _).
  exists d, w'. rewrite !listcall_list, dict_comp_app, Eq, dict_comp_cons.
  split; [reflexivity|].
  rewrite by_name_unknown by (now rewrite Hm). reflexivity.
Qed.

End Batch.

(** ** Loops whose results are dropped *)

Section Dropped.

Context `{Collaborators}.

Variable method : string.

Notation "x <- m ;; k" := (bind m (fun x => k))
  (at level 100, m at next level, right associativity).

(** [for u in units: u.method()] leaves the world that the comprehension
    of the same calls leaves, and returns exactly when it does *)
Lemma for_each_as_comp (l : list ref) :
  forall (acc : dict value) (w : world),
    snd (for_each l (invoke_ method) w)
    = snd (dict_comp l
             (fun m => n <- unit_name m ;; v <- invoke m method [] ;; ret (n, v))
             acc w)
    /\ returned (fst (for_each l (invoke_ method) w))
       = returned (fst (dict_comp l
             (fun m => n <- unit_name m ;; v <- invoke m method [] ;; ret (n, v))
             acc w)).
Proof.
  induction l as [|r l IH]; intros acc w; [split; reflexivity|].
  rewrite for_each_cons, dict_comp_cons. cbv beta.
  destruct (heap w !! r) as [[k s| |]|] eqn:E.
  - rewrite (by_ref_step _ _ _ _ _ _ E), (invoke__step _ _ _ _ _ E).
    destruct (fst (call method [] s)) as [v|e]; [|split; reflexivity].
    apply IH.
  - unfold invoke_, bind, invoke, unit_name. rewrite E. split; reflexivity.
  - unfold invoke_, bind, invoke, unit_name. rewrite E. split; reflexivity.
  - unfold invoke_, bind, invoke, unit_name. rewrite E. split; reflexivity.
Qed.

End Dropped.

(** ** A pass over every motor *)

Section AllMotors.

Context `{Collaborators}.

Variable method : string.

Hypothesis call_returns : forall s, returned (fst (call method [] s)) = true.

(** [for u in self.motors.values(): u.method()] on a well-formed world
    returns, and has called the method once on every unit *)
Lemma all_units_loop (w : world) :
  wf w = true ->
  exists w',
    for_each (dict_values (motors w)) (invoke_ method) w = (Returns tt, w')
    /\ wf w' = true
    /\ units_only w w'
    /\ motors w' = motors w
    /\ forall k r s, dict_get k (motors w) = Some r ->
         heap w !! r = Some (OUnit k s) ->
         heap w' !! r = Some (OUnit k (snd (call method [] s))).
Proof.
  intros Hwf.
  destruct (names_loop method [] call_returns (dict_keys (motors w)) [] w Hwf
              (keys_known _))
    as (d & w' & Eq & Hwf' & Hu & Hm & _ & _ & _ & Once & _).
  rewrite <- (refs_as_names method [] (motors w) [] w Hwf) in Eq.
  2:{ intros k r Hin. apply In_dict_get; [now apply wf_distinct | exact Hin]. }
  destruct (for_each_as_comp method (dict_values (motors w)) [] w) as [E1 E2].
  rewrite Eq in E1, E2. simpl in E1, E2.
  exists w'. split; [|split; [|split; [|split]]]; auto.
  - destruct (for_each (dict_values (motors w)) (invoke_ method) w)
      as [[[]|e] w0]; simpl in *; [congruence | discriminate].
  - intros k r s Hk Hs.
    destruct (Once (wf_distinct _ Hwf) k r s (known_key _ _ _ Hk) Hk Hs)
      as (v & _ & _ & Hh).
    exact Hh.
Qed.

End AllMotors.

Section Validation.

Context `{Collaborators}.

(** the validation loop reaches the first unknown name, stops every motor
    and raises for that name *)
Lemma check_names_unknown (l : list string) (w : world) :
  forallb (fun n => dict_mem n (motors w)) l = false ->
  exists pre u post,
    l = pre ++ u :: post
    /\ forallb (fun n => dict_mem n (motors w)) pre = true
    /\ dict_mem u (motors w) = false
    /\ check_names l w
       = match stopMotor_all w with
         | (Returns _, w') => (Raises (unknown_motor u), w')
         | (Raises e, w') => (Raises e, w')
         end.
Proof.
  induction l as [|a l IH]; simpl; [discriminate|].
  unfold bind at 1, get_motors.
  destruct (dict_mem a (motors w)) eqn:Ea; simpl.
  - intros Hl. destruct (IH Hl) as (pre & u & post & -> & Hpre & Hu & Eq).
    exists (a :: pre), u, post. simpl. rewrite Ea, Hpre. auto.
  - intros _. exists [], a, l. auto.
Qed.

Lemma check_names_known (l : list string) (w : world) :
  forallb (fun n => dict_mem n (motors w)) l = true ->
  check_names l w = (Returns tt, w).
Proof.
  induction l as [|a l IH]; simpl; [reflexivity|].
  unfold bind at 1, get_motors.
  destruct (dict_mem a (motors w)); simpl; [exact IH | discriminate].
Qed.

(** [self.stopMotor()] is [stopMotor] at [mlist=None] with its result
    dropped *)
Lemma stopMotor_None (w : world) :
  stopMotor SelNone w
  = match stopMotor_all w with
    | (Returns _, w') => (Returns PNone, w')
    | (Raises e, w') => (Raises e, w')
    end.
Proof.
  unfold stopMotor, stopMotor_all, _delist, bind, get_motors, ret.
  now destruct (for_each (dict_values (motors w)) (invoke_ "stop") w)
    as [[[]|e] w'].
Qed.


Lemma close_unfold (w : world) :
  close w
  = match for_each (dict_values (motors w)) (invoke_ "close") w with
    | (Returns _, w1) => set_motors [] w1
    | (Raises e, w1) => (Raises e, w1)
    end.
Proof. reflexivity. Qed.

(** when [close] returns, it has emptied the motor mapping *)
Lemma close_empties (w w' : world) :
  close w = (Returns tt, w') -> motors w' = [].
Proof.
  rewrite close_unfold.
  destruct (for_each (dict_values (motors w)) (invoke_ "close") w)
    as [[[]|e] w1]; [|discriminate].
  unfold set_motors. intros [= <-]. reflexivity.
Qed.

End Validation.

(** ** Well-formedness is an invariant

    [__init__] builds a well-formed world ([init_returns] below) and every
    other method keeps it so, returning or raising. *)

Section Invariant.

Context `{Collaborators}.

#[export] Instance keeps_wf_preorder : PreOrder keeps_wf.
Proof.
  split.
  - intros w Hw. exact Hw.
  - intros w1 w2 w3 H12 H23 Hw. auto.
Qed.

Lemma invoke_keeps_wf (m : ref) (method : string) (args : list value) :
  preserves keeps_wf (invoke m method args).
Proof.
  intros w Hwf. apply (wf_units_only w).
  - apply invoke_units_only.
  - apply invoke_keeps_motors.
  - exact Hwf.
Qed.

Lemma close_keeps_wf : preserves keeps_wf close.
Proof.
  intros w Hwf. rewrite close_unfold.
  pose proof (preserves_for_each keeps_wf (dict_values (motors w))
                (invoke_ "close")
                (fun m => preserves_invoke_ keeps_wf "close" m invoke_keeps_wf)
                w Hwf) as Hloop.
  destruct (for_each (dict_values (motors w)) (invoke_ "close") w)
    as [[[]|e] w1]; simpl in *; [reflexivity | exact Hloop].
Qed.

Lemma needservice_keeps_wf (sname className : string) (servargs : kwargs) :
  preserves keeps_wf (needservice sname className servargs).
Proof.
  intros w Hwf. unfold needservice, bind, get_sharedServices.
  destruct (dict_mem sname (sharedServices w)); simpl.
  - now destruct (dict_get sname (sharedServices w)).
  - unfold construct. destruct (new_service className servargs) as [s|e];
      simpl; [|exact Hwf].
    assert (Hwf' : wf (set_heap (heap w ++ [OService s]) w) = true).
    { unfold wf in *. simpl. apply andb_prop in Hwf as [Hd Hu].
      rewrite Hd. simpl. rewrite forallb_forall in *.
      intros kr Hin. specialize (Hu kr Hin).
      destruct (heap w !! snd kr) as [o|] eqn:E; [|discriminate].
      now rewrite (lookup_app_l_Some _ _ _ _ E). }
    now destruct (dict_get sname _).
Qed.

Lemma wf_invariant (mlist : selector) (method : string) (args : list value) :
  preserves keeps_wf (_listcall mlist method args)
  /\ preserves keeps_wf (stopMotor mlist)
  /\ preserves keeps_wf ticker
  /\ preserves keeps_wf odef
  /\ preserves keeps_wf close.
Proof.
  split; [|split; [|split; [|split]]].
  - apply (preserves_listcall keeps_wf). apply invoke_keeps_wf.
  - apply (preserves_stopMotor keeps_wf). apply invoke_keeps_wf.
  - apply (preserves_ticker keeps_wf). apply invoke_keeps_wf.
  - apply (preserves_odef keeps_wf). apply invoke_keeps_wf.
  - apply close_keeps_wf.
Qed.

(** [close] returns when no unit's [close] raises *)
Lemma close_returns (w : world) :
  wf w = true ->
  (forall s, returned (fst (call "close" [] s)) = true) ->
  exists w', close w = (Returns tt, w').
Proof.
  intros Hwf Hret.
  destruct (all_units_loop "close" Hret w Hwf) as (w1 & E & _).
  rewrite close_unfold, E. eexists. reflexivity.
Qed.

End Invariant.

(** ** Construction *)

Section Construction.

Context `{Collaborators}.

#[export] Instance grows_preorder : PreOrder grows.
Proof.
  split.
  - intros w. repeat split. auto.
  - intros w1 w2 w3 (A1 & B1 & C1 & D1 & E1) (A2 & B2 & C2 & D2 & E2).
    repeat split; try congruence. auto.
Qed.

Lemma monitors_app (h1 h2 : list obj) :
  monitors (h1 ++ h2) = monitors h1 + monitors h2.
Proof.
  induction h1 as [|o h1 IH]; simpl; [reflexivity|].
  destruct o; simpl; now rewrite IH.
Qed.

Lemma add_motor_step (d : mdef kwargs) (s : ustate) (w : world) :
  new_unit d = Returns s ->
  add_motor d w
  = (Returns tt,
     {| heap := heap w ++ [OUnit (md_name d) s];
        sharedServices := sharedServices w;
        motors := dict_set (md_name d) (length (heap w)) (motors w);
        quadmon := quadmon w;
        atexit := atexit w |}).
Proof.
  intros E. unfold add_motor, bind, construct. rewrite E. reflexivity.
Qed.

Lemma add_motor_raises (d : mdef kwargs) (e : exn) (w : world) :
  new_unit d = Raises e -> add_motor d w = (Raises e, w).
Proof.
  intros E. unfold add_motor, bind, construct. rewrite E. reflexivity.
Qed.

Lemma add_motor_grows (d : mdef kwargs) : preserves grows (add_motor d).
Proof.
  intros w. destruct (new_unit d) as [s|e] eqn:E.
  - rewrite (add_motor_step _ _ _ E). unfold grows. simpl.
    repeat split.
    + intros i o Hi. now apply lookup_app_l_Some.
    + rewrite monitors_app. simpl. lia.
  - rewrite (add_motor_raises _ _ _ E). reflexivity.
Qed.

Lemma add_motors_grow (defs : list (mdef kwargs)) :
  preserves grows (for_each defs add_motor).
Proof. apply (preserves_for_each grows). apply add_motor_grows. Qed.

(** the unit loop, when every unit constructor returns *)
Lemma add_motors_loop (defs : list (mdef kwargs)) :
  forall w,
    forallb (fun d => returned (new_unit d)) defs = true ->
    exists w',
      for_each defs add_motor w = (Returns tt, w')
      /\ grows w w'
      /\ (distinct (dict_keys (motors w)) = true ->
          distinct (dict_keys (motors w')) = true)
      /\ (forall n,
            match last_named n defs with
            | Some d =>
                exists r s, new_unit d = Returns s
                  /\ dict_get n (motors w') = Some r
                  /\ heap w' !! r = Some (OUnit n s)
            | None => dict_get n (motors w') = dict_get n (motors w)
            end)
      /\ (distinct (map md_name defs) = true ->
          (forall n, mem n (map md_name defs) = true ->
             mem n (dict_keys (motors w)) = false) ->
          dict_keys (motors w') = dict_keys (motors w) ++ map md_name defs).
Proof.
  induction defs as [|d ds IH]; intros w Hall.
  - exists w. simpl. repeat split; auto.
    intros _ _. now rewrite app_nil_r.
  - simpl in Hall. apply andb_prop in Hall as [Hd Hall].
    destruct (new_unit d) as [s|e] eqn:Ed; [clear Hd|discriminate].
    pose proof (add_motor_step d s w Ed) as Estep.
    pose proof (add_motor_grows d w) as Hg1. rewrite Estep in Hg1.
    simpl in Hg1.
    set (w1 := {| heap := heap w ++ [OUnit (md_name d) s];
                  sharedServices := sharedServices w;
                  motors := dict_set (md_name d) (length (heap w)) (motors w);
                  quadmon := quadmon w;
                  atexit := atexit w |}) in *.
    destruct (IH w1 Hall) as (w' & Eq & Hg & Hdist & Hlast & Hkeys).
    exists w'. split; [|split; [|split; [|split]]].
    + rewrite for_each_cons, Estep. exact Eq.
    + etransitivity; eauto.
    + intros Hdw. apply Hdist. simpl. now apply dict_set_distinct.
    + intros n. specialize (Hlast n). simpl.
      destruct (last_named n ds) as [d'|]; [exact Hlast|].
      destruct (String.eqb_spec (md_name d) n) as [Heq|Hne].
      * exists (length (heap w)), s. split; [exact Ed|]. split.
        -- rewrite Hlast. simpl. rewrite Heq. apply dict_get_set_eq.
        -- destruct Hg as (Hpre & _). apply Hpre. simpl.
           rewrite <- Heq. apply list_lookup_middle. reflexivity.
      * rewrite Hlast. simpl. now apply dict_get_set_ne.
    + intros Hdd Hfresh. simpl in Hdd.
      apply andb_prop in Hdd as [Hnd Hdd]. apply negb_true_iff in Hnd.
      assert (Hd0 : mem (md_name d) (dict_keys (motors w)) = false).
      { apply Hfresh. simpl. now rewrite String.eqb_refl. }
      rewrite Hkeys.
      * simpl. rewrite dict_keys_set, Hd0. now rewrite <- app_assoc.
      * exact Hdd.
      * intros n Hn. simpl. rewrite dict_keys_set, Hd0, mem_app. simpl.
        rewrite Hfresh by (simpl; rewrite Hn; now destruct (String.eqb n (md_name d))).
        destruct (String.eqb_spec n (md_name d)) as [Heq|Hne];
          [congruence | reflexivity].
Qed.

Lemma dict_set_nonempty {V : Type} (k : string) (v : V) (d : dict V) :
  dict_set k v d <> [].
Proof.
  destruct d as [|[k' v'] d]; simpl; [discriminate|].
  destruct (String.eqb k k'); discriminate.
Qed.

(** the name-to-lines mapping handed to the monitor *)
Lemma quad_lines_get (defs : list (mdef kwargs)) :
  forall (qd : dict (list Z)) (n : string),
    dict_get n (quad_lines defs qd)
    = match last_quad n defs with
      | Some ps => Some ps
      | None => dict_get n qd
      end.
Proof.
  induction defs as [|d ds IH]; intros qd n; simpl; [reflexivity|].
  destruct (is_quad d) as [ps|] eqn:Eq; rewrite IH.
  - destruct (last_quad n ds); [reflexivity|].
    destruct (String.eqb_spec (md_name d) n) as [Heq|Hne].
    + rewrite Heq. apply dict_get_set_eq.
    + now apply dict_get_set_ne.
  - destruct (last_quad n ds); [reflexivity|].
    now destruct (String.eqb (md_name d) n).
Qed.

Lemma is_quad_pair (d : mdef kwargs) (ps : list Z) :
  is_quad d = Some ps ->
  length ps = 2
  /\ exists rs, md_rotationsense d = Some rs /\ pins rs = Some ps.
Proof.
  unfold is_quad. destruct (md_rotationsense d) as [rs|]; [|discriminate].
  destruct (pins rs) as [ps'|] eqn:Ep; [|discriminate].
  destruct (Nat.eqb_spec (length ps') 2) as [El|]; [|discriminate].
  intros [= <-]. eauto.
Qed.

Lemma is_quad_fields (d : mdef kwargs) (ps : list Z) :
  is_quad d = Some ps
  <-> exists rs, md_rotationsense d = Some rs /\ pins rs = Some ps
        /\ length ps = 2.
Proof.
  split.
  - intros E. destruct (is_quad_pair d ps E) as (Hl & rs & Hrs & Hp). eauto.
  - intros (rs & Hrs & Hp & Hl). unfold is_quad. rewrite Hrs, Hp, Hl.
    reflexivity.
Qed.

Lemma last_quad_Some (n : string) (defs : list (mdef kwargs)) (ps : list Z) :
  last_quad n defs = Some ps ->
  exists d, In d defs /\ md_name d = n /\ is_quad d = Some ps.
Proof.
  induction defs as [|d ds IH]; simpl; [discriminate|].
  destruct (last_quad n ds) as [ps'|].
  - intros [= <-]. destruct (IH eq_refl) as (d' & Hin & Hn & Hq). eauto.
  - destruct (String.eqb_spec (md_name d) n) as [Heq|]; [|discriminate].
    intros Hq. eauto.
Qed.

Lemma last_quad_fresh (n : string) (defs : list (mdef kwargs)) :
  mem n (map md_name defs) = false -> last_quad n defs = None.
Proof.
  induction defs as [|d ds IH]; simpl; [reflexivity|].
  destruct (String.eqb_spec n (md_name d)) as [Heq|Hne]; [discriminate|].
  intros Hm. rewrite (IH Hm).
  destruct (String.eqb_spec (md_name d) n); [congruence | reflexivity].
Qed.

Lemma last_quad_In (defs : list (mdef kwargs)) (d : mdef kwargs)
  (ps : list Z) :
  In d defs -> is_quad d = Some ps ->
  exists ps', last_quad (md_name d) defs = Some ps'.
Proof.
  induction defs as [|d0 ds IH]; simpl; [tauto|].
  intros [Heq|Hin] Hq.
  - subst d0. destruct (last_quad (md_name d) ds); [eauto|].
    rewrite String.eqb_refl. eauto.
  - destruct (IH Hin Hq) as [ps' E]. rewrite E. eauto.
Qed.

Lemma last_quad_distinct (defs : list (mdef kwargs)) (d : mdef kwargs) :
  distinct (map md_name defs) = true -> In d defs ->
  last_quad (md_name d) defs = is_quad d.
Proof.
  induction defs as [|d0 ds IH]; simpl; [tauto|].
  intros Hd Hin. apply andb_prop in Hd as [Hn Hd].
  apply negb_true_iff in Hn. destruct Hin as [Heq|Hin].
  - subst d0. rewrite (last_quad_fresh _ _ Hn). now rewrite String.eqb_refl.
  - rewrite (IH Hd Hin).
    destruct (is_quad d); [reflexivity|].
    destruct (String.eqb_spec (md_name d0) (md_name d)) as [Heq|]; [|reflexivity].
    assert (Hm : mem (md_name d) (map md_name ds) = true).
    { apply mem_In. now apply in_map. }
    congruence.
Qed.

Lemma quad_lines_empty (defs : list (mdef kwargs)) :
  forall qd : dict (list Z),
    quad_lines defs qd = [] <-> qd = [] /\ existsb has_quad defs = false.
Proof.
  induction defs as [|d ds IH]; intros qd; simpl.
  - tauto.
  - unfold has_quad at 1. destruct (is_quad d) as [ps|]; simpl.
    + rewrite IH. split; [|intros [_ E]; discriminate].
      intros [E _]. now apply dict_set_nonempty in E.
    + apply IH.
Qed.

(** the three ways through the monitor block *)
Lemma quadmon_setup_none (defs : list (mdef kwargs)) (qm : option kwargs)
  (w : world) :
  match qm with
  | None => True
  | Some _ => quad_lines defs [] = []
  end ->
  quadmon_setup (Some defs) qm w
  = (Returns tt,
     {| heap := heap w; sharedServices := sharedServices w;
        motors := motors w; quadmon := None; atexit := atexit w |}).
Proof.
  destruct qm as [q|]; simpl; [|reflexivity].
  intros E. unfold bind, ret. simpl. rewrite E. reflexivity.
Qed.

Lemma quadmon_setup_some (defs : list (mdef kwargs)) (qm : kwargs)
  (q : qstate) (w : world) :
  quad_lines defs [] <> [] ->
  new_monitor (quad_lines defs []) qm = Returns q ->
  quadmon_setup (Some defs) (Some qm) w
  = (Returns tt,
     {| heap := heap w ++ [OMonitor q]; sharedServices := sharedServices w;
        motors := motors w; quadmon := Some (length (heap w));
        atexit := atexit w |}).
Proof.
  intros Hne E. unfold quadmon_setup, bind, iterate, ret.
  destruct (quad_lines defs []) as [|p qd] eqn:Eqd; [congruence|].
  unfold construct. rewrite E. reflexivity.
Qed.

Lemma init_unfold (defs : list (mdef kwargs)) (qm : option kwargs)
  (w : world) :
  __init__ (Some defs) qm w
  = match quadmon_setup (Some defs) qm
            {| heap := heap w; sharedServices := []; motors := [];
               quadmon := quadmon w; atexit := atexit w |} with
    | (Returns _, w1) =>
        match for_each defs add_motor w1 with
        | (Returns _, w2) => atexit_register w2
        | (Raises e, w2) => (Raises e, w2)
        end
    | (Raises e, w1) => (Raises e, w1)
    end.
Proof. reflexivity. Qed.

Lemma last_named_In (defs : list (mdef kwargs)) (d : mdef kwargs) :
  In d defs ->
  exists d', last_named (md_name d) defs = Some d' /\ md_name d' = md_name d.
Proof.
  induction defs as [|d0 ds IH]; simpl; [tauto|].
  intros Hin.
  destruct (last_named (md_name d) ds) as [d'|] eqn:E.
  - destruct Hin as [->|Hin].
    + clear IH. revert d' E. induction ds as [|d1 ds IH]; simpl; [discriminate|].
      intros d'. destruct (last_named (md_name d) ds) as [d2|].
      * intros [= <-]. destruct (IH d2 eq_refl) as (d3 & [= <-] & Hn). eauto.
      * destruct (String.eqb_spec (md_name d1) (md_name d)); [|discriminate].
        intros [= <-]. eauto.
    + destruct (IH Hin) as (d2 & [= <-] & Hn). eauto.
  - destruct Hin as [->|Hin].
    + rewrite String.eqb_refl. eauto.
    + destruct (IH Hin) as (d2 & Hd2 & _). discriminate.
Qed.

(** construction returns whenever its constructors do, and then every
    name is bound to the unit built from the last specification carrying
    it *)
Lemma init_returns (defs : list (mdef kwargs)) (qm : option kwargs)
  (w : world) :
  constructible defs qm = true ->
  exists w',
    __init__ (Some defs) qm w = (Returns tt, w')
    /\ wf w' = true
    /\ (forall n,
          match last_named n defs with
          | Some d =>
              exists r s, new_unit d = Returns s
                /\ dict_get n (motors w') = Some r
                /\ heap w' !! r = Some (OUnit n s)
          | None => dict_get n (motors w') = None
          end)
    /\ (distinct (map md_name defs) = true ->
        dict_keys (motors w') = map md_name defs).
Proof.
  unfold constructible. intros Hc. apply andb_prop in Hc as [Hunits Hmon].
  set (w0 := {| heap := heap w; sharedServices := []; motors := [];
                quadmon := quadmon w; atexit := atexit w |}).
  assert (Hsetup : exists w1,
            quadmon_setup (Some defs) qm w0 = (Returns tt, w1)
            /\ motors w1 = []).
  { destruct qm as [q|].
    - destruct (quad_lines defs []) as [|p qd] eqn:Eqd.
      + eexists. split; [apply quadmon_setup_none; exact Eqd | reflexivity].
      + destruct (new_monitor (p :: qd) q) as [m|e] eqn:Em; [|discriminate].
        eexists. split;
          [apply (quadmon_setup_some defs q m); rewrite Eqd;
             [discriminate | exact Em]
          | reflexivity].
    - eexists. split; [now apply quadmon_setup_none | reflexivity]. }
  destruct Hsetup as (w1 & E1 & Hm1).
  destruct (add_motors_loop defs w1 Hunits)
    as (w2 & E2 & Hg & Hdist & Hlast & Hkeys).
  rewrite Hm1 in Hdist, Hkeys. simpl in Hdist, Hkeys.
  assert (Hlast' : forall n,
            match last_named n defs with
            | Some d =>
                exists r s, new_unit d = Returns s
                  /\ dict_get n (motors w2) = Some r
                  /\ heap w2 !! r = Some (OUnit n s)
            | None => dict_get n (motors w2) = None
            end).
  { intros n. specialize (Hlast n).
    destruct (last_named n defs); [exact Hlast|]. now rewrite Hlast, Hm1. }
  exists (snd (atexit_register w2)).
  split; [|split; [|split]].
  - rewrite init_unfold. fold w0. rewrite E1, E2. reflexivity.
  - unfold wf. simpl. rewrite (Hdist eq_refl). simpl.
    apply forallb_forall. intros [k r] Hin. simpl.
    apply (In_dict_get _ _ _ (Hdist eq_refl)) in Hin.
    specialize (Hlast' k). destruct (last_named k defs).
    + destruct Hlast' as (r' & s & _ & Hk & Hh).
      assert (r' = r) by congruence. subst r'.
      rewrite Hh. simpl. apply String.eqb_refl.
    + congruence.
  - exact Hlast'.
  - intros Hd. simpl. apply (Hkeys Hd). reflexivity.
Qed.

End Construction.

(** ** A batch over names served one by one

    The comprehension of [_listcall] over distinct names, each bound to a
    unit on whose present state the call returns: no assumption is made on
    what the method does on other states or other units. *)

Section Served.

Context `{Collaborators}.

Notation "x <- m ;; k" := (bind m (fun x => k))
  (at level 100, m at next level, right associativity).

Lemma returns_on_step (method : string) (args : list value) (w : world)
  (a k : string) (r : ref) (s s' : ustate) :
  wf w = true -> dict_get a (motors w) = Some r ->
  heap w !! r = Some (OUnit a s) -> k <> a ->
  returns_on method args (set_heap (<[r := OUnit a s']> (heap w)) w) k
  = returns_on method args w k.
Proof.
  intros Hwf Ha Hs Hne. unfold returns_on. simpl.
  destruct (dict_get k (motors w)) as [r'|] eqn:Ek; [|reflexivity].
  rewrite list_lookup_insert_ne; [reflexivity|].
  intros ->. apply Hne. eapply wf_inj; eauto.
Qed.


End Served.

(** ** The claims *)

Section Claims.

Context `{Collaborators}.

(** C3. [stopMotor] with a collection of names of which at least one is not
    a key of the motor mapping: provided a unit's [stop] never raises, the
    call raises the unknown-motor error ([ValueError], for the first
    unknown name of the collection), and the world it leaves is the world
    [stopMotor()] with no selector leaves: the motor mapping is as before
    and every known unit has had [stop] called on it and is in the state
    [stop] leaves. *)
Theorem stopMotor_unknown_name_stops_all (l : list string) (w : world) :
  wf w = true ->
  (forall s, returned (fst (call "stop" [] s)) = true) ->
  forallb (fun n => dict_mem n (motors w)) l = false ->
  exists pre u post w',
    l = pre ++ u :: post
    /\ forallb (fun n => dict_mem n (motors w)) pre = true
    /\ dict_mem u (motors w) = false
    /\ stopMotor (SelList l) w = (Raises (unknown_motor u), w')
    /\ stopMotor SelNone w = (Returns PNone, w')
    /\ motors w' = motors w
    /\ forall k r s, dict_get k (motors w) = Some r ->
         heap w !! r = Some (OUnit k s) ->
         heap w' !! r = Some (OUnit k (snd (call "stop" [] s))).
Proof.
  intros Hwf Hstop Hl.
  destruct (check_names_unknown l w Hl) as (pre & u & post & El & Hpre & Hu & Eq).
  destruct (all_units_loop "stop" Hstop w Hwf) as (w' & Eall & _ & _ & Hm & Hfin).
  assert (Eall' : stopMotor_all w = (Returns tt, w')).
  { unfold stopMotor_all, bind, get_motors. exact Eall. }
  exists pre, u, post, w'. repeat (split; [assumption|]).
  split; [|split; [|split]]; auto.
  - unfold stopMotor, bind at 1, _delist, bind at 1.
    rewrite Eq, Eall'. reflexivity.
  - rewrite stopMotor_None, Eall'. reflexivity.
Qed.

(** C10. Every call through the dispatch layer, the tick, the state export
    and the broker leave the motor mapping as it was: the same names, in the
    same order, bound to the same unit references, for every selector and
    whether the call returns or raises.  Together with [__init__] and
    [close] these are all the methods of the class. *)
Theorem dispatch_keeps_motor_mapping :
  forall (mlist : selector) (v : value) (w : world),
    motors (snd (lastMotorPosition mlist w)) = motors w
    /\ motors (snd (lastMotorRPM mlist w)) = motors w
    /\ motors (snd (motorInvert v mlist w)) = motors w
    /\ motors (snd (motorFrequency v mlist w)) = motors w
    /\ motors (snd (motorDC v mlist w)) = motors w
    /\ motors (snd (motorSpeedLimits mlist w)) = motors w
    /\ motors (snd (motorSpeed v mlist w)) = motors w
    /\ motors (snd (motorFeedbackParam v mlist w)) = motors w
    /\ motors (snd (motorTargetSpeed v mlist w)) = motors w
    /\ motors (snd (stopMotor mlist w)) = motors w
    /\ motors (snd (ticker w)) = motors w
    /\ motors (snd (odef w)) = motors w
    /\ forall sname className servargs,
         motors (snd (needservice sname className servargs w)) = motors w.
Proof.
  intros mlist v w.
  assert (Hi : forall m meth a, preserves keeps_motors (invoke m meth a))
    by (intros; apply invoke_keeps_motors).
  repeat split;
    try (apply (preserves_listcall keeps_motors _ _ _ Hi w)).
  - apply (preserves_stopMotor keeps_motors _ Hi w).
  - apply (preserves_ticker keeps_motors Hi w).
  - apply (preserves_odef keeps_motors Hi w).
  - intros sname className servargs. unfold needservice, bind, get_sharedServices.
    destruct (dict_mem sname (sharedServices w)); simpl.
    + now destruct (dict_get sname (sharedServices w)).
    + unfold construct. destruct (new_service className servargs); simpl.
      * now destruct (dict_get sname _).
      * reflexivity.
Qed.



(** C8. Once [close] has returned: a call with no selector returns the
    empty dict; a call that names a motor, by one name or by a collection
    that holds at least one name, raises the unknown-motor error for the
    (first) name, [KeyError] through [_listcall] and [ValueError] through
    [stopMotor]; an empty collection names no motor and yields the empty
    dict; the tick, the export and a second [close] find no motor.  None of
    these calls changes the world: no unit is called. *)
Theorem closed_set_has_no_motor (w w' : world) :
  close w = (Returns tt, w') ->
  motors w' = []
  /\ (forall method args,
        _listcall SelNone method args w' = (Returns (PDict []), w'))
  /\ (forall n method args,
        _listcall (SelName n) method args w' = (Raises (KeyError n), w'))
  /\ (forall n l method args,
        _listcall (SelList (n :: l)) method args w' = (Raises (KeyError n), w'))
  /\ (forall method args,
        _listcall (SelList []) method args w' = (Returns (PDict []), w'))
  /\ stopMotor SelNone w' = (Returns PNone, w')
  /\ (forall n, stopMotor (SelName n) w' = (Raises (unknown_motor n), w'))
  /\ (forall n l,
        stopMotor (SelList (n :: l)) w' = (Raises (unknown_motor n), w'))
  /\ ticker w' = (Returns tt, w')
  /\ odef w' = (Returns [], w')
  /\ close w' = (Returns tt, w').
Proof.
  intros Hclose. apply close_empties in Hclose.
  destruct w' as [h ss ms q ax]. simpl in Hclose. subst ms.
  repeat split.
Qed.

(** C7. For a specification list with distinct names whose constructors
    return, construction returns, the motor mapping has one entry per
    specification, and its keys are the names in the order of the
    specifications.  The motor set built is well formed. *)
Theorem init_count_and_order (defs : list (mdef kwargs))
  (qm : option kwargs) (w : world) :
  distinct (map md_name defs) = true ->
  constructible defs qm = true ->
  exists w',
    __init__ (Some defs) qm w = (Returns tt, w')
    /\ length (motors w') = length defs
    /\ dict_keys (motors w') = map md_name defs
    /\ wf w' = true.
Proof.
  intros Hd Hc.
  destruct (init_returns defs qm w Hc) as (w' & E & Hwf & _ & Hkeys).
  exists w'. split; [exact E|]. split; [|split; [now apply Hkeys | exact Hwf]].
  specialize (Hkeys Hd). apply (f_equal length) in Hkeys.
  unfold dict_keys in Hkeys. now rewrite !length_map in Hkeys.
Qed.

(** C2, as amended.  A specification list in which two specifications
    share a name is not rejected: whenever its constructors return,
    construction returns, and every name of the list is a key of the motor
    mapping, bound to the unit built from the last specification that
    carries the name. *)
Theorem init_accepts_duplicate_names (defs : list (mdef kwargs))
  (qm : option kwargs) (w : world) :
  constructible defs qm = true ->
  exists w',
    __init__ (Some defs) qm w = (Returns tt, w')
    /\ forall d, In d defs ->
         exists d' r s,
           last_named (md_name d) defs = Some d'
           /\ md_name d' = md_name d
           /\ new_unit d' = Returns s
           /\ dict_get (md_name d) (motors w') = Some r
           /\ heap w' !! r = Some (OUnit (md_name d) s).
Proof.
  intros Hc.
  destruct (init_returns defs qm w Hc) as (w' & E & _ & Hlast & _).
  exists w'. split; [exact E|]. intros d Hin.
  destruct (last_named_In defs d Hin) as (d' & Hd' & Hn).
  specialize (Hlast (md_name d)). rewrite Hd' in Hlast.
  destruct Hlast as (r & s & Hs & Hk & Hh).
  exists d', r, s. auto.
Qed.

(** C9. Construction with a shared-monitor configuration, in terms of the
    fields of the specifications: a specification declares a pair when it
    has a ['rotationsense'] that has ['pins'] and the pins are two.
    - The filter of the code selects exactly those specifications.
    - The lines collected hold the name of every specification that
      declares a pair, bound to a declared pair (its own when names are
      distinct, else that of the last such specification of the name), and
      hold nothing else.
    - When some specification declares a pair, the lines collected are not
      empty and, the monitor constructor returning, exactly one monitor is
      added to the store, built from the collected lines, and [quadmon]
      refers to it.
    - When no specification declares a pair, the lines are empty, no
      monitor is constructed and [quadmon] is [None], although a monitor
      was asked for. *)
Theorem shared_monitor_iff_quad_pair (defs : list (mdef kwargs))
  (qm : kwargs) (w : world) :
  (forall d ps,
     is_quad d = Some ps
     <-> exists rs, md_rotationsense d = Some rs /\ pins rs = Some ps
           /\ length ps = 2)
  /\ (forall n, dict_get n (quad_lines defs []) = last_quad n defs)
  /\ (forall d rs ps, In d defs -> md_rotationsense d = Some rs ->
        pins rs = Some ps -> length ps = 2 ->
        dict_mem (md_name d) (quad_lines defs []) = true
        /\ (distinct (map md_name defs) = true ->
            dict_get (md_name d) (quad_lines defs []) = Some ps))
  /\ (forall n ps, dict_get n (quad_lines defs []) = Some ps ->
        length ps = 2
        /\ exists d rs, In d defs /\ md_name d = n
              /\ md_rotationsense d = Some rs /\ pins rs = Some ps)
  /\ (forall d rs ps, In d defs -> md_rotationsense d = Some rs ->
        pins rs = Some ps -> length ps = 2 ->
        quad_lines defs [] <> []
        /\ forall q, new_monitor (quad_lines defs []) qm = Returns q ->
             quadmon (snd (__init__ (Some defs) (Some qm) w))
             = Some (length (heap w))
             /\ heap (snd (__init__ (Some defs) (Some qm) w)) !! length (heap w)
                = Some (OMonitor q)
             /\ monitors (heap (snd (__init__ (Some defs) (Some qm) w)))
                = S (monitors (heap w)))
  /\ ((forall d rs ps, In d defs -> md_rotationsense d = Some rs ->
         pins rs = Some ps -> length ps <> 2) ->
      quad_lines defs [] = []
      /\ quadmon (snd (__init__ (Some defs) (Some qm) w)) = None
      /\ monitors (heap (snd (__init__ (Some defs) (Some qm) w)))
         = monitors (heap w)).
Proof.
  assert (Hget : forall n, dict_get n (quad_lines defs []) = last_quad n defs).
  { intros n. rewrite quad_lines_get. simpl. now destruct (last_quad n defs). }
  assert (Hempty : existsb has_quad defs = false <-> quad_lines defs [] = []).
  { rewrite quad_lines_empty. tauto. }
  assert (Hnone : existsb has_quad defs = false ->
            quadmon (snd (__init__ (Some defs) (Some qm) w)) = None
            /\ monitors (heap (snd (__init__ (Some defs) (Some qm) w)))
               = monitors (heap w)).
  { intros Hno. apply Hempty in Hno.
    rewrite init_unfold, (quadmon_setup_none defs (Some qm) _ Hno).
    match goal with
    | |- context [for_each defs add_motor ?w1] =>
        pose proof (add_motors_grow defs w1) as (_ & Hmon & Hq & _);
        destruct (for_each defs add_motor w1) as [[[]|e] w2]
    end; simpl in *; auto. }
  assert (Hsome : existsb has_quad defs = true ->
            forall q, new_monitor (quad_lines defs []) qm = Returns q ->
              quadmon (snd (__init__ (Some defs) (Some qm) w))
              = Some (length (heap w))
              /\ heap (snd (__init__ (Some defs) (Some qm) w)) !! length (heap w)
                 = Some (OMonitor q)
              /\ monitors (heap (snd (__init__ (Some defs) (Some qm) w)))
                 = S (monitors (heap w))).
  { intros Hsome q Hq.
    assert (Hne : quad_lines defs [] <> []).
    { intros E. apply Hempty in E. congruence. }
    rewrite init_unfold, (quadmon_setup_some defs qm q _ Hne Hq).
    match goal with
    | |- context [for_each defs add_motor ?w1] =>
        pose proof (add_motors_grow defs w1) as (Hpre & Hmon & Hqm & _);
        destruct (for_each defs add_motor w1) as [[[]|e] w2]
    end; simpl in *.
    - rewrite Hqm, Hmon, monitors_app. simpl.
      split; [reflexivity|]. split; [|lia].
      apply Hpre. apply list_lookup_middle. reflexivity.
    - rewrite Hqm, Hmon, monitors_app. simpl.
      split; [reflexivity|]. split; [|lia].
      apply Hpre. apply list_lookup_middle. reflexivity. }
  assert (Hhas : forall d rs ps, In d defs -> md_rotationsense d = Some rs ->
            pins rs = Some ps -> length ps = 2 ->
            is_quad d = Some ps /\ existsb has_quad defs = true).
  { intros d rs ps Hin Hrs Hp Hl.
    assert (Hq : is_quad d = Some ps) by (apply is_quad_fields; eauto).
    split; [exact Hq|]. apply existsb_exists. exists d. split; [exact Hin|].
    unfold has_quad. now rewrite Hq. }
  split; [apply is_quad_fields|]. split; [exact Hget|].
  split; [|split; [|split]].
  - intros d rs ps Hin Hrs Hp Hl.
    destruct (Hhas d rs ps Hin Hrs Hp Hl) as [Hq _]. split.
    + unfold dict_mem. rewrite Hget.
      destruct (last_quad_In defs d ps Hin Hq) as [ps' E]. now rewrite E.
    + intros Hd. rewrite Hget, (last_quad_distinct defs d Hd Hin). exact Hq.
  - intros n ps E. rewrite Hget in E.
    destruct (last_quad_Some _ _ _ E) as (d & Hin & Hn & Hq).
    destruct (is_quad_pair d ps Hq) as (Hl & rs & Hrs & Hp).
    split; [exact Hl|]. exists d, rs. auto.
  - intros d rs ps Hin Hrs Hp Hl.
    destruct (Hhas d rs ps Hin Hrs Hp Hl) as [_ Hex]. split.
    + intros E. apply Hempty in E. congruence.
    + now apply Hsome.
  - intros Hnot.
    assert (Hno : existsb has_quad defs = false).
    { destruct (existsb has_quad defs) eqn:Ex; [|reflexivity].
      apply existsb_exists in Ex as (d & Hin & Hq). unfold has_quad in Hq.
      destruct (is_quad d) as [ps|] eqn:Eq; [|discriminate].
      destruct (is_quad_pair d ps Eq) as (Hl & rs & Hrs & Hp).
      now destruct (Hnot d rs ps Hin Hrs Hp). }
    split; [now apply Hempty | now apply Hnone].
Qed.

End Claims.

(** ** The claims on the two-motor set *)

(** C1 fails on the code.  [motorDC(0.5, mlist=["left", "bogus"])] on the
    two-motor set raises [KeyError] for [bogus], and by then [left] has been
    driven: its duty cycle went from 0 to 0.5.  [right] is untouched. *)
Theorem motorDC_unknown_name_mutates :
  fst (motorDC (VNum (1 # 2)) (SelList ["left"; "bogus"]) two_motors)
  = Raises (KeyError "bogus")
  /\ duty_of "left" two_motors = Some 0%Q
  /\ duty_of "left"
       (snd (motorDC (VNum (1 # 2)) (SelList ["left"; "bogus"]) two_motors))
     = Some (1 # 2)%Q
  /\ duty_of "right"
       (snd (motorDC (VNum (1 # 2)) (SelList ["left"; "bogus"]) two_motors))
     = Some 0%Q.
Proof. vm_compute. repeat split. Qed.

(** the unknown name first: nothing has been called yet when it raises *)
Example motorDC_unknown_name_first :
  motorDC (VNum (1 # 2)) (SelList ["bogus"; "left"]) two_motors
  = (Raises (KeyError "bogus"), two_motors).
Proof. reflexivity. Qed.

(** C2 fails on the code.  Two specifications named [left]: construction
    returns, and [left] is bound to the unit built second. *)
Lemma init_duplicate_names_counterexample :
  fst (__init__ (Some [left_def; left_again]) None blank) = Returns tt
  /\ motors (snd (__init__ (Some [left_def; left_again]) None blank))
     = [("left", 1)].
Proof. vm_compute. split; reflexivity. Qed.

Lemma init_accepts_duplicate_names_witness :
  constructible [left_def; left_again] None = true
  /\ exists w',
       __init__ (Some [left_def; left_again]) None blank = (Returns tt, w')
       /\ forall d, In d [left_def; left_again] ->
            exists d' r s,
              last_named (md_name d) [left_def; left_again] = Some d'
              /\ md_name d' = md_name d
              /\ new_unit d' = Returns s
              /\ dict_get (md_name d) (motors w') = Some r
              /\ heap w' !! r = Some (OUnit (md_name d) s).
Proof.
  split; [reflexivity|].
  apply (@init_accepts_duplicate_names sim [left_def; left_again] None blank).
  reflexivity.
Defined.

Lemma stopMotor_unknown_name_witness :
  wf running = true
  /\ forallb (fun n => dict_mem n (motors running)) ["left"; "bogus"] = false
  /\ exists pre u post w',
       ["left"; "bogus"] = pre ++ u :: post
       /\ forallb (fun n => dict_mem n (motors running)) pre = true
       /\ dict_mem u (motors running) = false
       /\ stopMotor (SelList ["left"; "bogus"]) running
          = (Raises (unknown_motor u), w')
       /\ stopMotor SelNone running = (Returns PNone, w')
       /\ motors w' = motors running
       /\ forall k r s, dict_get k (motors running) = Some r ->
            heap running !! r = Some (OUnit k s) ->
            heap w' !! r = Some (OUnit k (snd (call "stop" [] s))).
Proof.
  split; [reflexivity|]. split; [reflexivity|].
  apply (@stopMotor_unknown_name_stops_all sim ["left"; "bogus"] running).
  - reflexivity.
  - intros s. reflexivity.
  - reflexivity.
Defined.

(** both motors ran at 0.3 and are at 0 after the failed stop *)
Example stopMotor_unknown_name_example :
  duty_of "left" running = Some (3 # 10)%Q
  /\ duty_of "right" running = Some (3 # 10)%Q
  /\ fst (stopMotor (SelList ["left"; "bogus"]) running)
     = Raises (ValueError "bogus is not a known motor name")
  /\ duty_of "left" (snd (stopMotor (SelList ["left"; "bogus"]) running))
     = Some 0%Q
  /\ duty_of "right" (snd (stopMotor (SelList ["left"; "bogus"]) running))
     = Some 0%Q.
Proof. vm_compute. repeat split. Qed.


(** the second call passes another class and other arguments *)
Example needservice_twice :
  needservice "quadrature" "other.monitor" "22,23" with_service
  = (Returns 3, with_service).
Proof. reflexivity. Qed.

(** C5 fails on the code.  [close] resets the motor mapping and releases
    nothing else: on the two-motor set with one cached service, after
    [close] the mapping is empty while the broker still holds the service
    cached before, the service object is still stored, and [quadmon] still
    refers to the monitor (the monitor branch of [close] is [pass]). *)
Theorem close_leaves_broker_entry :
  fst (close with_service) = Returns tt
  /\ motors (snd (close with_service)) = []
  /\ sharedServices (snd (close with_service)) = [("quadrature", 3)]
  /\ heap (snd (close with_service)) !! 3
     = Some (OService ("quadmonitor.monitor", "17,18"))
  /\ quadmon (snd (close with_service)) = Some 0.
Proof. vm_compute. repeat split. Qed.



(** the examples of the dispatch contract *)
Example motorDC_left_only :
  fst (motorDC (VNum (1 # 2)) (SelName "left") two_motors)
  = Returns (PVal (VNum (1 # 2)))
  /\ duty_of "left" (snd (motorDC (VNum (1 # 2)) (SelName "left") two_motors))
     = Some (1 # 2)%Q
  /\ duty_of "right" (snd (motorDC (VNum (1 # 2)) (SelName "left") two_motors))
     = Some 0%Q.
Proof. vm_compute. repeat split. Qed.

Example motorDC_all :
  fst (motorDC (VNum (3 # 10)) SelNone two_motors)
  = Returns (PDict [("left", VNum (3 # 10)); ("right", VNum (3 # 10))])
  /\ duty_of "left" running = Some (3 # 10)%Q
  /\ duty_of "right" running = Some (3 # 10)%Q.
Proof. vm_compute. repeat split. Qed.

Lemma init_count_and_order_witness :
  distinct (map md_name [left_def; right_def]) = true
  /\ constructible [left_def; right_def] (Some "quadmonitor") = true
  /\ exists w',
       __init__ (Some [left_def; right_def]) (Some "quadmonitor") blank
       = (Returns tt, w')
       /\ length (motors w') = 2
       /\ dict_keys (motors w') = ["left"; "right"]
       /\ wf w' = true.
Proof.
  split; [reflexivity|]. split; [reflexivity|].
  apply (@init_count_and_order sim [left_def; right_def] (Some "quadmonitor") blank);
    reflexivity.
Defined.

Lemma closed_set_has_no_motor_witness :
  close two_motors = (Returns tt, snd (close two_motors))
  /\ motors (snd (close two_motors)) = []
  /\ lastMotorRPM SelNone (snd (close two_motors))
     = (Returns (PDict []), snd (close two_motors))
  /\ motorDC (VNum (1 # 2)) (SelName "left") (snd (close two_motors))
     = (Raises (KeyError "left"), snd (close two_motors)).
Proof.
  split; [reflexivity|].
  destruct (@closed_set_has_no_motor sim two_motors (snd (close two_motors)) eq_refl)
    as (Hm & Hall & Hone & _).
  split; [exact Hm|]. split; [apply Hall | apply Hone].
Defined.

(** the monitor of the two-motor set was given the lines of [right] alone *)
Example two_motors_monitor :
  quadmon two_motors = Some 0
  /\ heap two_motors !! 0 = Some (OMonitor [("right", [17%Z; 18%Z])])
  /\ monitors (heap two_motors) = 1.
Proof. vm_compute. repeat split. Qed.

(** ** Further properties of the dispatch layer *)

Section Further.

Context `{Collaborators}.

Notation "x <- m ;; k" := (bind m (fun x => k))
  (at level 100, m at next level, right associativity).

Lemma list_comp_cons {A B : Type} (a : A) (l : list A) (body : A -> M B)
  (w : world) :
  list_comp (a :: l) body w
  = match body a w with
    | (Returns b, w1) =>
        match list_comp l body w1 with
        | (Returns bs, w2) => (Returns (b :: bs), w2)
        | (Raises e, w2) => (Raises e, w2)
        end
    | (Raises e, w1) => (Raises e, w1)
    end.
Proof. reflexivity. Qed.

Lemma for_each_app {A : Type} (l1 l2 : list A) (body : A -> M unit) :
  forall w,
    for_each (l1 ++ l2) body w
    = match for_each l1 body w with
      | (Returns _, w1) => for_each l2 body w1
      | (Raises e, w1) => (Raises e, w1)
      end.
Proof.
  induction l1 as [|a l1 IH]; intros w; [reflexivity|].
  simpl app. rewrite !for_each_cons.
  destruct (body a w) as [[[]|e] w1]; [apply IH | reflexivity].
Qed.

Lemma motors_item_known (n : string) (r : ref) (w : world) :
  dict_get n (motors w) = Some r -> motors_item n w = (Returns r, w).
Proof.
  intros E. unfold motors_item, bind, get_motors, ret. now rewrite E.
Qed.

(** looking up known names reads the mapping and nothing else *)
Lemma list_comp_known (l : list string) (w : world) :
  forallb (fun n => dict_mem n (motors w)) l = true ->
  exists refs,
    list_comp l motors_item w = (Returns refs, w)
    /\ Forall2 (fun n r => dict_get n (motors w) = Some r) l refs.
Proof.
  induction l as [|n l IH]; simpl forallb.
  - intros _. exists []. split; [reflexivity | constructor].
  - intros Hl. apply andb_prop in Hl as [Hn Hl].
    unfold dict_mem in Hn.
    destruct (dict_get n (motors w)) as [r|] eqn:En; [|discriminate].
    destruct (IH Hl) as (refs & E & HF).
    exists (r :: refs). split; [|now constructor].
    rewrite list_comp_cons, (motors_item_known _ _ _ En), E. reflexivity.
Qed.

(** the names of the mapping, looked up in order, are its values *)
Lemma lookups_of_keys (d ps : dict ref) (refs : list ref) :
  (forall k r, In (k, r) ps -> dict_get k d = Some r) ->
  Forall2 (fun n r => dict_get n d = Some r) (dict_keys ps) refs ->
  refs = dict_values ps.
Proof.
  revert refs. induction ps as [|[k r] ps IH]; intros refs Hps HF.
  - inversion HF. reflexivity.
  - simpl in HF. inversion HF as [|n r' l refs' Hn HF' E1 E2]. subst.
    simpl. f_equal.
    + assert (dict_get k d = Some r) by (apply Hps; now left). congruence.
    + apply IH; [|exact HF']. intros k' r0 Hin. apply Hps. now right.
Qed.



Lemma delist_list_known (l : list string) (w : world) :
  forallb (fun n => dict_mem n (motors w)) l = true ->
  exists refs,
    _delist (SelList l) w = (Returns refs, w)
    /\ Forall2 (fun n r => dict_get n (motors w) = Some r) l refs.
Proof.
  intros Hl. destruct (list_comp_known l w Hl) as (refs & E & HF).
  exists refs. split; [|exact HF].
  unfold _delist, bind. rewrite (check_names_known l w Hl). exact E.
Qed.


(** X1. Validation by [_delist] is read-only on a valid selector: with no
    selector it returns the units of the mapping in iteration order, with a
    known name that unit, with a collection of known names the units bound
    to them in the order given, and the world is as before.  A single
    unknown name raises [ValueError] and, unlike an unknown name in a
    collection, stops no motor. *)
Theorem delist_valid_is_read_only (w : world) :
  _delist SelNone w = (Returns (dict_values (motors w)), w)
  /\ (forall n r, dict_get n (motors w) = Some r ->
        _delist (SelName n) w = (Returns [r], w))
  /\ (forall n, dict_get n (motors w) = None ->
        _delist (SelName n) w = (Raises (unknown_motor n), w))
  /\ (forall l, valid (SelList l) w = true ->
        exists refs,
          _delist (SelList l) w = (Returns refs, w)
          /\ Forall2 (fun n r => dict_get n (motors w) = Some r) l refs).
Proof.
  split; [reflexivity|]. split; [|split].
  - intros n r E. unfold _delist, bind, get_motors. now rewrite E.
  - intros n E. unfold _delist, bind, get_motors. now rewrite E.
  - intros l Hl. now apply delist_list_known.
Qed.

(** X2. A single unknown name touches no motor on either path:
    [_listcall] raises [KeyError] and [stopMotor] raises [ValueError], and
    the world is as before.  In particular [stopMotor] with one unknown name
    does not stop the known motors. *)
Theorem unknown_single_name_touches_nothing (n : string) (w : world) :
  dict_get n (motors w) = None ->
  (forall method args,
     _listcall (SelName n) method args w = (Raises (KeyError n), w))
  /\ stopMotor (SelName n) w = (Raises (unknown_motor n), w).
Proof.
  intros E. split.
  - intros method args. unfold _listcall, bind, motors_item, bind, get_motors.
    now rewrite E.
  - unfold stopMotor, bind, _delist, bind, get_motors. now rewrite E.
Qed.

(** X3. On a well-formed motor set, a call with no selector is the call
    with the collection of all motor names in iteration order: the same
    result and the same world, for every method through [_listcall] and for
    [stopMotor]. *)
Theorem no_selector_is_all_names (w : world) :
  wf w = true ->
  (forall method args,
     _listcall SelNone method args w
     = _listcall (SelList (dict_keys (motors w))) method args w)
  /\ stopMotor SelNone w = stopMotor (SelList (dict_keys (motors w))) w.
Proof.
  intros Hwf. split.
  - intros method args. now apply listcall_all_as_list.
  - destruct (delist_list_known (dict_keys (motors w)) w (keys_known _))
      as (refs & E & HF).
    assert (refs = dict_values (motors w)) as ->.
    { apply (lookups_of_keys (motors w)); [|exact HF].
      intros k r Hin. apply In_dict_get; [now apply wf_distinct | exact Hin]. }
    unfold stopMotor, bind at 1. symmetry. unfold bind at 1. rewrite E.
    reflexivity.
Qed.


(** X5. The tick on a well-formed motor set, when a unit's [ticker] never
    raises: it returns, every unit of the mapping has had its [ticker]
    called exactly once (it is in the state the call leaves from the state
    it was in), and the motor mapping is as before. *)
Theorem ticker_steps_every_unit_once (w : world) :
  wf w = true ->
  (forall s, returned (fst (call "ticker" [] s)) = true) ->
  exists w',
    ticker w = (Returns tt, w')
    /\ motors w' = motors w
    /\ forall k r s, dict_get k (motors w) = Some r ->
         heap w !! r = Some (OUnit k s) ->
         heap w' !! r = Some (OUnit k (snd (call "ticker" [] s))).
Proof.
  intros Hwf Hret.
  destruct (all_units_loop "ticker" Hret w Hwf) as (w' & E & _ & _ & Hm & Hfin).
  exists w'. split; [|auto]. unfold ticker, bind, get_motors. exact E.
Qed.

(** X6. [close] on a well-formed motor set, when a unit's [close] never
    raises: it returns, every unit of the mapping has had [close] called
    exactly once, the mapping is empty, and a second [close] returns without
    calling any unit and leaves the world as it is. *)
Theorem close_closes_every_unit_once (w : world) :
  wf w = true ->
  (forall s, returned (fst (call "close" [] s)) = true) ->
  exists w',
    close w = (Returns tt, w')
    /\ motors w' = []
    /\ (forall k r s, dict_get k (motors w) = Some r ->
          heap w !! r = Some (OUnit k s) ->
          heap w' !! r = Some (OUnit k (snd (call "close" [] s))))
    /\ close w' = (Returns tt, w').
Proof.
  intros Hwf Hret.
  destruct (all_units_loop "close" Hret w Hwf) as (w1 & E & _ & _ & _ & Hfin).
  exists (snd (set_motors [] w1)). rewrite close_unfold, E.
  split; [reflexivity|]. split; [reflexivity|]. split; [exact Hfin|].
  reflexivity.
Qed.

(** X7. [close] discards the motor mapping exactly when it returns: when a
    unit's [close] raises, the exception leaves [close] before the mapping
    is reset, and the mapping is as it was. *)
Theorem close_empties_iff_returns (w : world) :
  motors (snd (close w))
  = if returned (fst (close w)) then [] else motors w.
Proof.
  rewrite close_unfold.
  pose proof (preserves_for_each keeps_motors (dict_values (motors w))
                (invoke_ "close")
                (fun m => preserves_invoke_ keeps_motors "close" m
                            invoke_keeps_motors) w) as Hk.
  destruct (for_each (dict_values (motors w)) (invoke_ "close") w)
    as [[[]|e] w1]; simpl in *; [reflexivity | exact Hk].
Qed.

(** the comprehension over distinct names, each bound to a unit on whose
    present state the call returns *)
Lemma names_loop_local (method : string) (args : list value)
  (pre : list string) :
  forall (acc : dict value) (w : world),
    wf w = true ->
    distinct pre = true ->
    forallb (returns_on method args w) pre = true ->
    exists d w',
      dict_comp pre
        (fun n => m <- motors_item n ;; v <- invoke m method args ;; ret (n, v))
        acc w = (Returns d, w')
      /\ wf w' = true
      /\ motors w' = motors w
      /\ (forall k r s, mem k pre = true -> dict_get k (motors w) = Some r ->
            heap w !! r = Some (OUnit k s) ->
            heap w' !! r = Some (OUnit k (snd (call method args s))))
      /\ (forall k r, dict_get k (motors w) = Some r -> mem k pre = false ->
            heap w' !! r = heap w !! r).
Proof.
  induction pre as [|a l IH]; intros acc w Hwf Hd Hret.
  - exists acc, w. repeat split; auto. discriminate.
  - simpl in Hd, Hret. apply andb_prop in Hd as [Hal Hd].
    apply negb_true_iff in Hal. apply andb_prop in Hret as [Ha Hret].
    unfold returns_on in Ha.
    destruct (dict_get a (motors w)) as [r|] eqn:Er; [|discriminate].
    destruct (wf_lookup _ _ _ Hwf Er) as [s Hs]. rewrite Hs in Ha.
    destruct (fst (call method args s)) as [v|e] eqn:Ev; [clear Ha|discriminate].
    set (s1 := snd (call method args s)) in *.
    set (w1 := set_heap (<[r := OUnit a s1]> (heap w)) w).
    assert (Hwf1 : wf w1 = true) by (eapply step_wf; eauto).
    assert (Hr1 : heap w1 !! r = Some (OUnit a s1)).
    { unfold w1. simpl. apply list_lookup_insert_eq.
      now apply lookup_lt_Some in Hs. }
    assert (Hother : forall k r', dict_get k (motors w) = Some r' -> k <> a ->
                       heap w1 !! r' = heap w !! r').
    { intros k r' Hk Hne. unfold w1. simpl.
      apply list_lookup_insert_ne. intros ->.
      apply Hne. eapply wf_inj; eauto. }
    assert (Hret1 : forallb (returns_on method args w1) l = true).
    { rewrite forallb_forall in *. intros k Hk.
      unfold w1. rewrite (returns_on_step _ _ _ _ _ _ _ _ Hwf Er Hs).
      - now apply Hret.
      - intros ->. apply mem_In in Hk. congruence. }
    destruct (IH (dict_set a v acc) w1 Hwf1 Hd Hret1)
      as (d & w' & Eq & Hwf' & Hm & Hin & Hout).
    exists d, w'. split; [|split; [|split; [|split]]].
    + rewrite dict_comp_cons. cbv beta.
      rewrite (by_name_step _ _ _ _ _ _ Er Hs), Ev. exact Eq.
    + exact Hwf'.
    + rewrite Hm. reflexivity.
    + intros k r' s' Hk Hkr Hs'. simpl in Hk.
      destruct (String.eqb_spec k a) as [Heq|Hne].
      * subst k. assert (r' = r) by congruence. subst r'.
        assert (s' = s) by congruence. subst s'.
        rewrite (Hout a r Er Hal). exact Hr1.
      * apply (Hin k r' s' Hk Hkr). rewrite (Hother k r' Hkr Hne). exact Hs'.
    + intros k r' Hkr Hk. simpl in Hk.
      destruct (String.eqb_spec k a) as [Heq|Hne]; [discriminate|].
      rewrite (Hout k r' Hkr Hk). now apply (Hother k).
Qed.

(** X8. An exception of one unit aborts the batch.  In a collection of
    names, when the calls on the distinct names before [n] return and the
    call on the unit of [n] raises, [_listcall] raises that exception: the
    results of the units served are lost, those units stay in the state
    their call left, the unit of [n] is in the state its raising call left,
    and no other unit is called, the names after [n] included.  With no
    selector the same holds for the mapping's own order. *)
Theorem listcall_aborts_at_raising_unit (method : string)
  (args : list value) (pre post : list string) (n : string) (r : ref)
  (s : ustate) (e : exn) (w : world) :
  wf w = true ->
  distinct (pre ++ [n]) = true ->
  forallb (returns_on method args w) pre = true ->
  dict_get n (motors w) = Some r ->
  heap w !! r = Some (OUnit n s) ->
  fst (call method args s) = Raises e ->
  exists w',
    _listcall (SelList (pre ++ n :: post)) method args w = (Raises e, w')
    /\ (dict_keys (motors w) = pre ++ n :: post ->
        _listcall SelNone method args w = (Raises e, w'))
    /\ motors w' = motors w
    /\ (forall k r' s', mem k pre = true -> dict_get k (motors w) = Some r' ->
          heap w !! r' = Some (OUnit k s') ->
          heap w' !! r' = Some (OUnit k (snd (call method args s'))))
    /\ heap w' !! r = Some (OUnit n (snd (call method args s)))
    /\ (forall k r', dict_get k (motors w) = Some r' ->
          mem k (pre ++ [n]) = false -> heap w' !! r' = heap w !! r').
Proof.
  intros Hwf Hd Hret Hn Hs He.
  assert (Hdpre : distinct pre = true /\ mem n pre = false).
  { clear - Hd. induction pre as [|a l IH]; simpl in *; [auto|].
    apply andb_prop in Hd as [Ha Hd]. destruct (IH Hd) as [Hl Hnl].
    rewrite mem_app in Ha. simpl in Ha. apply negb_true_iff in Ha.
    apply orb_false_iff in Ha as [Ha1 Ha2]. rewrite Ha1, Hl. simpl.
    split; [reflexivity|].
    destruct (String.eqb_spec n a) as [Heq|]; [|exact Hnl].
    subst. now rewrite String.eqb_refl in Ha2. }
  destruct Hdpre as [Hdpre Hnpre].
  destruct (names_loop_local method args pre [] w Hwf Hdpre Hret)
    as (d & w1 & Eq & Hwf1 & Hm1 & Hin & Hout).
  assert (Hs1 : heap w1 !! r = Some (OUnit n s)).
  { rewrite (Hout n r Hn Hnpre). exact Hs. }
  assert (Hn1 : dict_get n (motors w1) = Some r) by (now rewrite Hm1).
  set (w' := set_heap (<[r := OUnit n (snd (call method args s))]> (heap w1)) w1).
  assert (Hrun : _listcall (SelList (pre ++ n :: post)) method args w
                 = (Raises e, w')).
  { rewrite listcall_list, dict_comp_app, Eq, dict_comp_cons. cbv beta.
    rewrite (by_name_step _ _ _ _ _ _ Hn1 Hs1), He. reflexivity. }
  assert (Hfar : forall k r', dict_get k (motors w) = Some r' -> k <> n ->
                   heap w' !! r' = heap w1 !! r').
  { intros k r' Hk Hne. unfold w'. simpl.
    apply list_lookup_insert_ne. intros ->.
    apply Hne. eapply (wf_inj w); eauto. }
  exists w'. split; [exact Hrun|]. split; [|split; [|split; [|split]]].
  - intros Hkeys. rewrite (listcall_all_as_list method args w Hwf), Hkeys.
    exact Hrun.
  - unfold w'. simpl. exact Hm1.
  - intros k r' s' Hk Hkr Hs'. rewrite (Hfar k r' Hkr).
    + now apply (Hin k r' s').
    + intros ->. congruence.
  - unfold w'. simpl. apply list_lookup_insert_eq.
    now apply lookup_lt_Some in Hs1.
  - intros k r' Hkr Hk. rewrite mem_app in Hk. simpl in Hk.
    apply orb_false_iff in Hk as [Hk1 Hk2].
    rewrite (Hfar k r' Hkr).
    + now apply (Hout k).
    + intros ->. now rewrite String.eqb_refl in Hk2.
Qed.

(** X10. A broker entry is never rebound or dropped by [needservice]: a
    key that is cached stays bound to the same reference after a call with
    any key, class name and arguments, and the stored service it refers to
    is untouched. *)
Theorem needservice_keeps_entries (k : string) (r : ref) (w : world) :
  dict_get k (sharedServices w) = Some r ->
  forall sname className servargs,
    dict_get k (sharedServices (snd (needservice sname className servargs w)))
    = Some r
    /\ forall s, heap w !! r = Some (OService s) ->
         heap (snd (needservice sname className servargs w)) !! r
         = Some (OService s).
Proof.
  intros Hk sname className servargs.
  unfold needservice, bind, get_sharedServices, dict_mem.
  destruct (dict_get sname (sharedServices w)) as [r0|] eqn:Es; simpl.
  - rewrite Es. simpl. auto.
  - unfold construct. destruct (new_service className servargs) as [s0|e];
      simpl; [|auto].
    rewrite dict_get_set_eq. simpl. split.
    + rewrite dict_get_set_ne; [exact Hk | congruence].
    + intros s Hs. now apply lookup_app_l_Some.
Qed.

Lemma quadmon_setup_frame (motordefs : option (list (mdef kwargs)))
  (qm : option kwargs) (w : world) :
  atexit (snd (quadmon_setup motordefs qm w)) = atexit w
  /\ sharedServices (snd (quadmon_setup motordefs qm w)) = sharedServices w
  /\ motors (snd (quadmon_setup motordefs qm w)) = motors w.
Proof.
  unfold quadmon_setup. destruct qm as [q|]; [|repeat split].
  destruct motordefs as [defs|]; [|repeat split].
  unfold bind, iterate, ret.
  destruct (quad_lines defs []) as [|p qd]; [repeat split|].
  unfold construct. destruct (new_monitor (p :: qd) q); repeat split.
Qed.

(** X11. Construction stops at the first unit whose constructor raises.
    When the units of the specifications before it construct and the
    monitor block returns, [__init__] raises that exception, no exit hook
    is registered, and the mapping holds the units built so far: each name
    of the specifications before the failing one is bound to the unit built
    from the last of them carrying it, and no other name is bound. *)
Theorem init_stops_at_failing_unit (pre post : list (mdef kwargs))
  (d : mdef kwargs) (e : exn) (qm : option kwargs) (w : world) :
  forallb (fun d0 => returned (new_unit d0)) pre = true ->
  new_unit d = Raises e ->
  match qm with
  | None => true
  | Some q =>
      match quad_lines (pre ++ d :: post) [] with
      | [] => true
      | qd => returned (new_monitor qd q)
      end
  end = true ->
  exists w',
    __init__ (Some (pre ++ d :: post)) qm w = (Raises e, w')
    /\ atexit w' = atexit w
    /\ forall n,
         match last_named n pre with
         | Some d' =>
             exists r s, new_unit d' = Returns s
               /\ dict_get n (motors w') = Some r
               /\ heap w' !! r = Some (OUnit n s)
         | None => dict_get n (motors w') = None
         end.
Proof.
  intros Hpre Hd Hmon.
  set (defs := pre ++ d :: post) in *.
  set (w0 := {| heap := heap w; sharedServices := []; motors := [];
                quadmon := quadmon w; atexit := atexit w |}).
  assert (Hsetup : exists w1, quadmon_setup (Some defs) qm w0 = (Returns tt, w1)).
  { destruct qm as [q|].
    - destruct (quad_lines defs []) as [|p qd] eqn:Eqd.
      + eexists. apply quadmon_setup_none. exact Eqd.
      + destruct (new_monitor (p :: qd) q) as [m|e0] eqn:Em; [|discriminate].
        eexists. apply (quadmon_setup_some defs q m); rewrite Eqd;
          [discriminate | exact Em].
    - eexists. now apply quadmon_setup_none. }
  destruct Hsetup as (w1 & E1).
  destruct (quadmon_setup_frame (Some defs) qm w0) as (Ha1 & _ & Hm1).
  rewrite E1 in Ha1, Hm1. simpl in Ha1, Hm1.
  destruct (add_motors_loop pre w1 Hpre)
    as (w2 & E2 & (_ & _ & _ & _ & Ha2) & _ & Hlast & _).
  exists w2. split; [|split].
  - rewrite init_unfold. fold w0. rewrite E1. unfold defs.
    rewrite for_each_app, E2, for_each_cons, (add_motor_raises _ _ _ Hd).
    reflexivity.
  - congruence.
  - intros n. specialize (Hlast n).
    destruct (last_named n pre); [exact Hlast|]. now rewrite Hlast, Hm1.
Qed.

(** X12. The exit hook is registered exactly when construction returns:
    once for a construction that returns, not at all for one that raises,
    the default [motordefs=None] included, which always raises. *)
Theorem init_registers_hook_iff_returns
  (motordefs : option (list (mdef kwargs))) (qm : option kwargs)
  (w : world) :
  atexit (snd (__init__ motordefs qm w))
  = (if returned (fst (__init__ motordefs qm w)) then S (atexit w)
     else atexit w)
  /\ returned (fst (__init__ None qm w)) = false.
Proof.
  split; [|now destruct qm].
  destruct motordefs as [defs|]; [|now destruct qm].
  rewrite init_unfold.
  match goal with
  | |- context [quadmon_setup ?md qm ?w0] =>
      destruct (quadmon_setup_frame md qm w0) as (Ha1 & _);
      destruct (quadmon_setup md qm w0) as [[[]|e] w1]
  end; simpl in Ha1; [|exact Ha1].
  destruct (add_motors_grow defs w1) as (_ & _ & _ & _ & Ha2).
  destruct (for_each defs add_motor w1) as [[[]|e] w2]; simpl in *; congruence.
Qed.

Lemma Forall2_impl_In {A B : Type} (P Q : A -> B -> Prop) (l : list A)
  (l' : list B) :
  Forall2 P l l' ->
  (forall a b, In a l -> P a b -> Q a b) ->
  Forall2 Q l l'.
Proof.
  induction 1 as [|a b l l' Hab _ IH]; intros Himp; constructor.
  - apply Himp; [now left | exact Hab].
  - apply IH. intros a' b' Hin. apply Himp. now right.
Qed.

(** the list comprehension of one call over the slots of the mapping *)
Lemma values_loop (method : string) (args : list value)
  (call_returns : forall s, returned (fst (call method args s)) = true)
  (ps : dict ref) :
  forall w,
    wf w = true ->
    distinct (dict_keys ps) = true ->
    (forall k r, In (k, r) ps -> dict_get k (motors w) = Some r) ->
    exists vs w',
      list_comp (dict_values ps) (fun m => invoke m method args) w
      = (Returns vs, w')
      /\ wf w' = true
      /\ motors w' = motors w
      /\ Forall2 (fun kr v =>
                    exists s, heap w !! snd kr = Some (OUnit (fst kr) s)
                      /\ fst (call method args s) = Returns v
                      /\ heap w' !! snd kr
                         = Some (OUnit (fst kr) (snd (call method args s))))
           ps vs
      /\ (forall k r, dict_get k (motors w) = Some r ->
            mem k (dict_keys ps) = false -> heap w' !! r = heap w !! r).
Proof.
  induction ps as [|[k r] ps IH]; intros w Hwf Hd Hps.
  - exists [], w. repeat split; auto; try constructor.
  - simpl in Hd. apply andb_prop in Hd as [Hk Hd]. apply negb_true_iff in Hk.
    assert (Hkr : dict_get k (motors w) = Some r) by (apply Hps; now left).
    destruct (wf_lookup _ _ _ Hwf Hkr) as [s Hs].
    destruct (call_value method args call_returns s) as [v Ev].
    set (s1 := snd (call method args s)) in *.
    set (w1 := set_heap (<[r := OUnit k s1]> (heap w)) w).
    assert (Hwf1 : wf w1 = true) by (eapply step_wf; eauto).
    assert (Hr1 : heap w1 !! r = Some (OUnit k s1)).
    { unfold w1. simpl. apply list_lookup_insert_eq.
      now apply lookup_lt_Some in Hs. }
    assert (Hother : forall k' r', dict_get k' (motors w) = Some r' -> k' <> k ->
                       heap w1 !! r' = heap w !! r').
    { intros k' r' Hk' Hne. unfold w1. simpl.
      apply list_lookup_insert_ne. intros ->.
      apply Hne. eapply wf_inj; eauto. }
    destruct (IH w1 Hwf1 Hd) as (vs & w' & Eq & Hwf' & Hm & HF & Hout).
    { intros k' r' Hin. simpl. apply Hps. now right. }
    exists (v :: vs), w'. split; [|split; [|split; [|split]]].
    + simpl dict_values. rewrite list_comp_cons.
      rewrite (invoke_unit _ _ _ _ _ _ Hs), Ev. fold s1. fold w1.
      rewrite Eq. reflexivity.
    + exact Hwf'.
    + rewrite Hm. reflexivity.
    + constructor.
      * exists s. simpl. split; [exact Hs|]. split; [exact Ev|].
        rewrite (Hout k r Hkr Hk). exact Hr1.
      * apply (Forall2_impl_In _ _ _ _ HF). intros [k' r'] v' Hin (s' & H1 & H2 & H3).
        simpl in *. exists s'. split; [|auto].
        rewrite <- (Hother k' r'); [exact H1 | apply Hps; now right |].
        intros ->. apply (in_map fst) in Hin. simpl in Hin.
        apply mem_In in Hin. unfold dict_keys in Hk. congruence.
    + intros k' r' Hk' Hm'. simpl in Hm'.
      destruct (String.eqb_spec k' k) as [Heq|Hne]; [discriminate|].
      rewrite (Hout k' r' Hk' Hm'). now apply (Hother k').
Qed.

(** X13. The export on a well-formed motor set, when a unit's [odef] never
    raises: it returns one entry per motor, in iteration order, the i-th
    entry being what [odef] returns on the i-th unit, and the motor mapping
    is as before. *)
Theorem odef_one_entry_per_motor (w : world) :
  wf w = true ->
  (forall s, returned (fst (call "odef" [] s)) = true) ->
  exists vs w',
    odef w = (Returns vs, w')
    /\ length vs = length (motors w)
    /\ motors w' = motors w
    /\ Forall2 (fun kr v =>
                  exists s, heap w !! snd kr = Some (OUnit (fst kr) s)
                    /\ fst (call "odef" [] s) = Returns v)
         (motors w) vs.
Proof.
  intros Hwf Hret.
  destruct (values_loop "odef" [] Hret (motors w) w Hwf (wf_distinct _ Hwf))
    as (vs & w' & Eq & _ & Hm & HF & _).
  { intros k r Hin. apply In_dict_get; [now apply wf_distinct | exact Hin]. }
  exists vs, w'. split; [|split; [|split; [exact Hm|]]].
  - unfold odef, bind, get_motors. exact Eq.
  - symmetry. eapply Forall2_length. exact HF.
  - apply (Forall2_impl_In _ _ _ _ HF). intros kr v _ (s & H1 & H2 & _). eauto.
Qed.

(** X14. An unknown name after known names.  [_listcall] checks no name
    in advance: when the method returns on every unit, the names before the
    first unknown name are served exactly as a call on them alone serves
    them, and then [KeyError] is raised for the unknown name; the units that
    are not named before it are untouched, and the results of the units
    served are lost. *)
Theorem listcall_serves_names_before_unknown (method : string)
  (args : list value) (pre post : list string) (u : string) (w : world) :
  wf w = true ->
  (forall s, returned (fst (call method args s)) = true) ->
  valid (SelList pre) w = true ->
  dict_get u (motors w) = None ->
  exists d w',
    _listcall (SelList pre) method args w = (Returns (PDict d), w')
    /\ _listcall (SelList (pre ++ u :: post)) method args w
       = (Raises (KeyError u), w')
    /\ motors w' = motors w
    /\ (forall k r, mem k pre = true -> dict_get k (motors w) = Some r ->
          exists s, heap w' !! r = Some (OUnit k (snd (call method args s))))
    /\ (forall k r, dict_get k (motors w) = Some r -> mem k pre = false ->
          heap w' !! r = heap w !! r).
Proof.
  intros Hwf Hret Hpre Hu. simpl in Hpre.
  destruct (names_loop method args Hret pre [] w Hwf Hpre)
    as (d & w' & Eq & _ & _ & Hm & _ & HF & Last & _).
  exists d, w'. rewrite !listcall_list, dict_comp_app, Eq, dict_comp_cons.
  cbv beta. rewrite by_name_unknown by (now rewrite Hm).
  split; [reflexivity|]. split; [reflexivity|]. split; [exact Hm|].
  split; [|exact HF].
  intros k r Hk Hr. destruct (Last k r Hk Hr) as (s & v & _ & _ & Hh). eauto.
Qed.

(** X15. The monitor is built before any unit.  When a monitor
    configuration is supplied, at least one specification declares exactly
    two lines and the monitor constructor raises, [__init__] raises that
    exception with nothing built: the store is as before, the mapping and
    the broker are empty, and no exit hook is registered. *)
Theorem init_monitor_failure_builds_nothing (defs : list (mdef kwargs))
  (qm : kwargs) (e : exn) (w : world) :
  existsb has_quad defs = true ->
  new_monitor (quad_lines defs []) qm = Raises e ->
  __init__ (Some defs) (Some qm) w
  = (Raises e,
     {| heap := heap w; sharedServices := []; motors := [];
        quadmon := quadmon w; atexit := atexit w |}).
Proof.
  intros Hq He. rewrite init_unfold.
  unfold quadmon_setup, bind, iterate, ret.
  destruct (quad_lines defs []) as [|p qd] eqn:Eqd.
  - apply quad_lines_empty in Eqd as [_ Eqd]. congruence.
  - unfold construct. rewrite He. reflexivity.
Qed.

End Further.

(** ** The further properties on concrete motor sets *)

Lemma unknown_single_name_witness :
  dict_get "bogus" (motors running) = None
  /\ motorDC (VNum (1 # 2)) (SelName "bogus") running
     = (Raises (KeyError "bogus"), running)
  /\ stopMotor (SelName "bogus") running
     = (Raises (unknown_motor "bogus"), running).
Proof.
  split; [reflexivity|].
  destruct (@unknown_single_name_touches_nothing sim "bogus" running eq_refl)
    as [Hcall Hstop].
  split; [apply Hcall | exact Hstop].
Defined.

Lemma no_selector_is_all_names_witness :
  wf two_motors = true
  /\ motorDC (VNum (3 # 10)) SelNone two_motors
     = motorDC (VNum (3 # 10)) (SelList ["left"; "right"]) two_motors
  /\ stopMotor SelNone two_motors
     = stopMotor (SelList ["left"; "right"]) two_motors.
Proof.
  split; [reflexivity|].
  destruct (@no_selector_is_all_names sim two_motors eq_refl) as [Hcall Hstop].
  split; [apply (Hcall "DC" [VNum (3 # 10)]) | exact Hstop].
Defined.


(** [right] is stopped and [left] keeps running *)
Example stopMotor_right_only :
  duty_of "left" (snd (stopMotor (SelList ["right"]) running)) = Some (3 # 10)%Q
  /\ duty_of "right" (snd (stopMotor (SelList ["right"]) running)) = Some 0%Q.
Proof. vm_compute. split; reflexivity. Qed.

Lemma ticker_steps_every_unit_once_witness :
  wf regulated = true
  /\ exists w',
       ticker regulated = (Returns tt, w')
       /\ motors w' = motors regulated
       /\ forall k r s, dict_get k (motors regulated) = Some r ->
            heap regulated !! r = Some (OUnit k s) ->
            heap w' !! r = Some (OUnit k (snd (call "ticker" [] s))).
Proof.
  split; [reflexivity|].
  apply (@ticker_steps_every_unit_once sim regulated).
  - reflexivity.
  - intros s. reflexivity.
Defined.

(** with a target of 100 and a last known speed of 0 the tick raises the
    duty cycle of both motors from 0 to a tenth *)
Example ticker_raises_duty_cycle :
  duty_of "left" regulated = Some 0%Q
  /\ option_map (Qeq_bool (1 # 10)) (duty_of "left" (snd (ticker regulated)))
     = Some true
  /\ option_map (Qeq_bool (1 # 10)) (duty_of "right" (snd (ticker regulated)))
     = Some true.
Proof. vm_compute. repeat split. Qed.

Lemma close_closes_every_unit_once_witness :
  wf running = true
  /\ exists w',
       close running = (Returns tt, w')
       /\ motors w' = []
       /\ (forall k r s, dict_get k (motors running) = Some r ->
             heap running !! r = Some (OUnit k s) ->
             heap w' !! r = Some (OUnit k (snd (call "close" [] s))))
       /\ close w' = (Returns tt, w').
Proof.
  split; [reflexivity|].
  apply (@close_closes_every_unit_once sim running).
  - reflexivity.
  - intros s. reflexivity.
Defined.

Lemma listcall_aborts_at_raising_unit_witness :
  @wf strict mixed = true
  /\ forallb (@returns_on strict "targetSpeed" [VNum 100] mixed) ["left"] = true
  /\ fst (@call strict "targetSpeed" [VNum 100] (false, sim_fresh))
     = Raises (CollaboratorError "no feedback controller")
  /\ exists w',
       @motorTargetSpeed strict (VNum 100) (SelList ["left"; "right"])
         mixed
       = (Raises (CollaboratorError "no feedback controller"), w')
       /\ @motorTargetSpeed strict (VNum 100) SelNone mixed
          = (Raises (CollaboratorError "no feedback controller"), w')
       /\ @heap strict w' !! 0
          = Some (@OUnit strict "left"
                    (true, sim_set_target (Some (100 : Q)) sim_fresh))
       /\ @heap strict w' !! 1 = Some (@OUnit strict "right" (false, sim_fresh)).
Proof.
  split; [reflexivity|]. split; [reflexivity|]. split; [reflexivity|].
  destruct (@listcall_aborts_at_raising_unit strict "targetSpeed" [VNum 100]
              ["left"] [] "right" 1 (false, sim_fresh)
              (CollaboratorError "no feedback controller") mixed)
    as (w' & Hlist & Hall & _ & Hpre & Hn & _); try reflexivity.
  exists w'. split; [exact Hlist|]. split; [apply Hall; reflexivity|].
  split; [|exact Hn].
  apply (Hpre "left" 0 (true, sim_fresh)); reflexivity.
Defined.

Lemma needservice_keeps_entries_witness :
  dict_get "quadrature" (sharedServices with_service) = Some 3
  /\ dict_get "quadrature"
       (sharedServices
          (snd (needservice "logging" "logger.filelog" "left.txt" with_service)))
     = Some 3
  /\ heap (snd (needservice "logging" "logger.filelog" "left.txt" with_service))
       !! 3
     = Some (OService ("quadmonitor.monitor", "17,18")).
Proof.
  split; [reflexivity|].
  destruct (@needservice_keeps_entries sim "quadrature" 3 with_service eq_refl
              "logging" "logger.filelog" "left.txt") as [Hk Hs].
  split; [exact Hk | apply Hs; reflexivity].
Defined.

Lemma init_stops_at_failing_unit_witness :
  new_unit broken_def = Raises (CollaboratorError "unknown class")
  /\ exists w',
       __init__ (Some ([left_def] ++ broken_def :: [right_def]))
         (Some "quadmonitor") blank
       = (Raises (CollaboratorError "unknown class"), w')
       /\ atexit w' = atexit blank
       /\ forall n,
            match last_named n [left_def] with
            | Some d' =>
                exists r s, new_unit d' = Returns s
                  /\ dict_get n (motors w') = Some r
                  /\ heap w' !! r = Some (OUnit n s)
            | None => dict_get n (motors w') = None
            end.
Proof.
  split; [reflexivity|].
  apply (@init_stops_at_failing_unit sim [left_def] [right_def] broken_def
           (CollaboratorError "unknown class") (Some "quadmonitor") blank);
    reflexivity.
Defined.

(** the monitor and [left] were built before the failure; [right] never *)
Example init_failure_leaves_partial_set :
  motors (snd (__init__ (Some [left_def; broken_def; right_def])
                 (Some "quadmonitor") blank))
  = [("left", 1)]
  /\ length (heap (snd (__init__ (Some [left_def; broken_def; right_def])
                         (Some "quadmonitor") blank))) = 2
  /\ atexit (snd (__init__ (Some [left_def; broken_def; right_def])
                   (Some "quadmonitor") blank)) = 0.
Proof. vm_compute. repeat split. Qed.

Lemma odef_one_entry_per_motor_witness :
  wf two_motors = true
  /\ exists vs w',
       odef two_motors = (Returns vs, w')
       /\ length vs = length (motors two_motors)
       /\ motors w' = motors two_motors
       /\ Forall2 (fun kr v =>
                     exists s, heap two_motors !! snd kr
                               = Some (OUnit (fst kr) s)
                       /\ fst (call "odef" [] s) = Returns v)
            (motors two_motors) vs.
Proof.
  split; [reflexivity|].
  apply (@odef_one_entry_per_motor sim two_motors).
  - reflexivity.
  - intros s. reflexivity.
Defined.

Lemma listcall_serves_names_before_unknown_witness :
  wf two_motors = true
  /\ valid (SelList ["left"]) two_motors = true
  /\ dict_get "bogus" (motors two_motors) = None
  /\ exists d w',
       motorDC (VNum (1 # 2)) (SelList ["left"]) two_motors
       = (Returns (PDict d), w')
       /\ motorDC (VNum (1 # 2)) (SelList ["left"; "bogus"; "right"]) two_motors
          = (Raises (KeyError "bogus"), w')
       /\ heap w' !! 2 = heap two_motors !! 2.
Proof.
  split; [reflexivity|]. split; [reflexivity|]. split; [reflexivity|].
  destruct (@listcall_serves_names_before_unknown sim "DC" [VNum (1 # 2)]
              ["left"] ["right"] "bogus" two_motors)
    as (d & w' & E1 & E2 & _ & _ & Hout);
    [reflexivity | intros s; reflexivity | reflexivity | reflexivity |].
  exists d, w'. split; [exact E1|]. split; [exact E2|].
  apply (Hout "right" 2); reflexivity.
Defined.

Lemma init_monitor_failure_witness :
  existsb has_quad [left_def; right_def] = true
  /\ new_monitor (quad_lines [left_def; right_def] []) ""
     = Raises (CollaboratorError "unknown class")
  /\ __init__ (Some [left_def; right_def]) (Some "") blank
     = (Raises (CollaboratorError "unknown class"), blank).
Proof.
  split; [reflexivity|]. split; [reflexivity|].
  apply (@init_monitor_failure_builds_nothing sim [left_def; right_def] ""
           (CollaboratorError "unknown class") blank); reflexivity.
Defined.

Lemma shared_monitor_iff_quad_pair_witness :
  (quad_lines [left_def; right_def] [] = [("right", [17%Z; 18%Z])]
   /\ quadmon two_motors = Some 0
   /\ heap two_motors !! 0 = Some (OMonitor [("right", [17%Z; 18%Z])])
   /\ monitors (heap two_motors) = 1)
  /\ (quad_lines [left_def; one_line_def; three_lines_def; no_pins_def] [] = []
      /\ quadmon
           (snd (__init__
                   (Some [left_def; one_line_def; three_lines_def; no_pins_def])
                   (Some "quadmonitor") blank)) = None
      /\ monitors
           (heap
              (snd (__init__
                      (Some [left_def; one_line_def; three_lines_def;
                             no_pins_def])
                      (Some "quadmonitor") blank))) = 0).
Proof.
  split.
  - destruct (@shared_monitor_iff_quad_pair sim [left_def; right_def]
                "quadmonitor" blank) as (_ & _ & _ & _ & Hsome & _).
    destruct (Hsome right_def {| pins := Some [17%Z; 18%Z] |} [17%Z; 18%Z])
      as [_ Hbuilt]; [right; left; reflexivity | reflexivity | reflexivity
                     | reflexivity |].
    split; [reflexivity|].
    apply (Hbuilt [("right", [17%Z; 18%Z])]). reflexivity.
  - destruct (@shared_monitor_iff_quad_pair sim
                [left_def; one_line_def; three_lines_def; no_pins_def]
                "quadmonitor" blank) as (_ & _ & _ & _ & _ & Hnone).
    apply Hnone. intros d rs ps Hin Hrs Hp.
    destruct Hin as [<-|[<-|[<-|[<-|[]]]]]; simpl in Hrs;
      try discriminate; injection Hrs as <-; simpl in Hp;
      try discriminate; injection Hp as <-; simpl; lia.
Defined.
